(** * CUR decomposition with SVD-leverage and PCovR column selection

    A shallow embedding of [utilities/CUR.py].

    - numpy arrays are records carrying their shape and their rows;
    - float64 scalars are kept abstract behind the class [Scalar] (only
      the operations the code uses, no algebraic law), instantiated with
      the binary64 primitive floats for concrete runs;
    - the numerical library (truncated SVD, pseudo-inverse) and the
      helper [sorted_eig] of [utilities/general.py] are the fields of
      the class [NumLib]: deterministic, possibly raising;
    - Python objects that are mutated in place (the working copies, the
      index lists) live in an explicit store, and every function that
      touches them is a computation in a state-and-exception monad. *)

From Stdlib Require Import List Bool Arith Lia Floats String.
From stdpp Require Import base list.

Set Default Proof Using "Type".

(** ** Scalars *)

Class Scalar (F : Type) := {
  f0 : F;                       (* 0.0 *)
  f1 : F;                       (* 1.0 *)
  fadd : F -> F -> F;
  fsub : F -> F -> F;
  fmul : F -> F -> F;
  fdiv : F -> F -> F;
  fsqrt : F -> F;               (* np.sqrt *)
  fabs : F -> F;                (* np.abs *)
  fltb : F -> F -> bool;        (* x < y *)
  fleb : F -> F -> bool;        (* x <= y *)
  feqb : F -> F -> bool;        (* x == y *)
  f_isnan : F -> bool;          (* np.isnan *)
  f_default_reg : F;            (* the literal 1e-6 of get_Ct *)
  f_default_tol : F             (* the literal 1e-4 of CUR.__init__ *)
}.

(** binary64, the dtype of the arrays the tutorials build. *)
#[export] Instance float64 : Scalar float := {
  f0 := 0%float;
  f1 := 1%float;
  fadd := PrimFloat.add;
  fsub := PrimFloat.sub;
  fmul := PrimFloat.mul;
  fdiv := PrimFloat.div;
  fsqrt := PrimFloat.sqrt;
  fabs := PrimFloat.abs;
  fltb := PrimFloat.ltb;
  fleb := PrimFloat.leb;
  feqb := PrimFloat.eqb;
  f_isnan := PrimFloat.is_nan;
  f_default_reg := 0x1.0c6f7a0b5ed8dp-20%float;
  f_default_tol := 0x1.a36e2eb1c432dp-14%float
}.

(** ** Exceptions and results *)

Inductive exn : Type :=
| IndexError
| ValueError
| TypeError
| LinAlgError
| ArpackError.

Inductive res (A : Type) : Type :=
| Ok (a : A)
| Raise (e : exn).
Arguments Ok {A} a.
Arguments Raise {A} e.

Definition res_bind {A B} (r : res A) (k : A -> res B) : res B :=
  match r with
  | Ok a => k a
  | Raise e => Raise e
  end.

Declare Scope res_scope.
Delimit Scope res_scope with res.
Notation "'try!' x ':=' r 'in' k" := (res_bind r (fun x => k))
  (at level 10, x pattern, r at level 100, k at level 200) : res_scope.

(** ** Arrays *)

Section Arrays.
Context {F : Type} `{SF : Scalar F}.

(** A two-dimensional ndarray: [shape] and the rows of its buffer. *)
Record ndarray : Type := NdArray {
  nrows : nat;
  ncols : nat;
  rows : list (list F)
}.

Definition get (M : ndarray) (i j : nat) : F :=
  nth j (nth i (rows M) []) f0.

Definition tabulate (r c : nat) (f : nat -> nat -> F) : ndarray :=
  {| nrows := r; ncols := c;
     rows := map (fun i => map (f i) (seq 0 c)) (seq 0 r) |}.

Definition shape_eqb (M N : ndarray) : bool :=
  (nrows M =? nrows N) && (ncols M =? ncols N).

(** [M.T] *)
Definition transpose (M : ndarray) : ndarray :=
  tabulate (ncols M) (nrows M) (fun i j => get M j i).

(** [M[:, j]], a one-dimensional array. *)
Definition column (M : ndarray) (j : nat) : list F :=
  map (fun i => get M i j) (seq 0 (nrows M)).

(** [M[:, j] = c] *)
Definition set_column (M : ndarray) (j : nat) (c : list F) : ndarray :=
  tabulate (nrows M) (ncols M)
           (fun i j' => if j' =? j then nth i c f0 else get M i j').

(** Sum of a one-dimensional array, accumulated from the left. *)
Definition fsum (l : list F) : F := fold_left fadd l f0.

(** [np.dot] / [np.matmul] of two one-dimensional arrays. *)
Definition dot (u v : list F) : F :=
  fsum (map (fun p => fmul (fst p) (snd p)) (combine u v)).

(** The product of two arrays whose inner dimensions agree. *)
Definition mm (M N : ndarray) : ndarray :=
  tabulate (nrows M) (ncols N)
           (fun i j => fsum (map (fun l => fmul (get M i l) (get N l j))
                                 (seq 0 (ncols M)))).

(** [np.matmul] of two-dimensional arrays; the inner dimensions must
    agree. *)
Definition matmul (M N : ndarray) : res ndarray :=
  if ncols M =? nrows N then Ok (mm M N) else Raise ValueError.

(** Entrywise binary operation on arrays of one shape. *)
Definition zip_arrays (op : F -> F -> F) (M N : ndarray) : res ndarray :=
  if shape_eqb M N
  then Ok (tabulate (nrows M) (ncols M) (fun i j => op (get M i j) (get N i j)))
  else Raise ValueError.

Definition map_array (op : F -> F) (M : ndarray) : ndarray :=
  tabulate (nrows M) (ncols M) (fun i j => op (get M i j)).

(** [a * M] for a scalar [a]. *)
Definition scale (a : F) (M : ndarray) : ndarray := map_array (fmul a) M.

(** [np.diag(v)] of a one-dimensional array. *)
Definition diag (v : list F) : ndarray :=
  tabulate (length v) (length v)
           (fun i j => if i =? j then nth i v f0 else f0).

(** The columns [idx] of [M], for indices in range. *)
Definition select_columns (M : ndarray) (idx : list nat) : ndarray :=
  tabulate (nrows M) (length idx) (fun i c => get M i (nth c idx 0)).

(** [M[:, idx]] with a list of column indices (a copy). *)
Definition take_columns (M : ndarray) (idx : list nat) : res ndarray :=
  if forallb (fun j => j <? ncols M) idx
  then Ok (select_columns M idx)
  else Raise IndexError.

(** The rows [idx] of [M], for indices in range. *)
Definition select_rows (M : ndarray) (idx : list nat) : ndarray :=
  tabulate (length idx) (ncols M) (fun r j => get M (nth r idx 0) j).

(** [M[idx, :]] with a list of row indices (a copy). *)
Definition take_rows (M : ndarray) (idx : list nat) : res ndarray :=
  if forallb (fun i => i <? nrows M) idx
  then Ok (select_rows M idx)
  else Raise IndexError.

(** Positions of the [true] entries of a boolean mask. *)
Definition mask_positions (mask : list bool) : list nat :=
  List.filter (fun i => nth i mask false) (seq 0 (length mask)).

(** [M[:, mask]] with a boolean mask, whose length must be the number
    of columns. *)
Definition mask_columns (M : ndarray) (mask : list bool) : res ndarray :=
  if length mask =? ncols M
  then take_columns M (mask_positions mask)
  else Raise IndexError.

(** The entries of [v] at the [true] positions of [mask]. *)
Definition select_entries (v : list F) (mask : list bool) : list F :=
  map (fun i => nth i v f0) (mask_positions mask).

(** [v[mask]] on a one-dimensional array. *)
Definition mask_vector (v : list F) (mask : list bool) : res (list F) :=
  if length mask =? length v
  then Ok (select_entries v mask)
  else Raise IndexError.

(** Truth value of a float: [x != 0] (a NaN is true). *)
Definition truthy (x : F) : bool := negb (feqb x f0).

(** [np.all(M)] *)
Definition np_all (M : ndarray) : bool :=
  forallb (forallb truthy) (rows M).

(** A numpy boolean compared with a float. *)
Definition bool_as_float (b : bool) : F := if b then f1 else f0.

(** [pi.argmax()]: the first maximum, a NaN counting as maximal. *)
Fixpoint argmax_from (best_i : nat) (best : F) (i : nat) (l : list F) : nat :=
  match l with
  | [] => best_i
  | x :: l' =>
      if f_isnan best then best_i
      else if negb (fleb x best)
           then argmax_from i x (S i) l'
           else argmax_from best_i best (S i) l'
  end.

Definition argmax (l : list F) : res nat :=
  match l with
  | [] => Raise ValueError
  | x :: l' => Ok (argmax_from 0 x 1 l')
  end.

(** [pi[idxs] = 0] on a one-dimensional array. *)
Definition zero_at (pi : list F) (idxs : list nat) : res (list F) :=
  if forallb (fun j => j <? length pi) idxs
  then Ok (fold_left (fun p j => <[j := f0]> p) idxs pi)
  else Raise IndexError.

(** ** The symmetry flag of [CUR.__init__]

    [self.A.shape == self.A.T.shape and
       np.all(np.abs(self.A - self.A.T)) < symmetry_tolerance] *)
Definition symmetric_flag (A : ndarray) (symmetry_tolerance : F) : res bool :=
  if shape_eqb A (transpose A)
  then (try! D := zip_arrays fsub A (transpose A) in
        Ok (fltb (bool_as_float (np_all (map_array fabs D))) symmetry_tolerance))%res
  else Ok false.

(** The test the documentation describes: every entry of [|A - A.T|]
    is below the tolerance. *)
Definition within_tolerance (A : ndarray) (tol : F) : bool :=
  forallb (forallb (fun x => fltb x tol))
          (rows (tabulate (nrows A) (ncols A)
                          (fun i j => fabs (fsub (get A i j) (get A j i))))).

Definition is_square (A : ndarray) : bool := nrows A =? ncols A.

End Arrays.

Arguments ndarray F : clear implicits.

(** ** The store and the monad of Python computations *)

(** Mutable objects: arrays and lists of indices. *)
Inductive pyobj (F : Type) : Type :=
| Arr (a : ndarray F)
| Lst (l : list nat).
Arguments Arr {F} a.
Arguments Lst {F} l.

Abbreviation loc := nat (only parsing).
Abbreviation store F := (list (pyobj F)) (only parsing).

(** The numerical routines the module imports: [scipy.sparse.linalg.svds]
    (returning [(U, s, Vt)]), [np.linalg.pinv], and [sorted_eig] of
    [utilities/general.py], called as [sorted_eig(mat, thresh=..)] and
    [sorted_eig(mat, n=..)]. They are functions of the array they
    receive and may raise. *)
Class NumLib (F : Type) := {
  svds : ndarray F -> nat -> res (ndarray F * list F * ndarray F);
  pinv : ndarray F -> res (ndarray F);
  sorted_eig : ndarray F -> option F -> option nat -> res (list F * ndarray F)
}.

(** A computation transforms the store and returns or raises; what it
    wrote before raising stays written. *)
Definition M (F A : Type) : Type := store F -> store F * res A.

Section Program.
Context {F : Type}.

Definition ret {A} (a : A) : M F A := fun s => (s, Ok a).
Definition raise {A} (e : exn) : M F A := fun s => (s, Raise e).
Definition bind {A B} (m : M F A) (k : A -> M F B) : M F B :=
  fun s => match m s with
           | (s', Ok a) => k a s'
           | (s', Raise e) => (s', Raise e)
           end.
Definition lift {A} (r : res A) : M F A := fun s => (s, r).

Definition alloc (o : pyobj F) : M F loc := fun s => (s ++ [o], Ok (length s)).
Definition write (l : loc) (o : pyobj F) : M F unit :=
  fun s => (<[l := o]> s, Ok tt).
Definition read_arr (l : loc) : M F (ndarray F) :=
  fun s => match s !! l with
           | Some (Arr a) => (s, Ok a)
           | _ => (s, Raise TypeError)
           end.
Definition read_list (l : loc) : M F (list nat) :=
  fun s => match s !! l with
           | Some (Lst ix) => (s, Ok ix)
           | _ => (s, Raise TypeError)
           end.

(** [l[i]] on a Python list. *)
Definition list_get (l : list nat) (i : nat) : res nat :=
  match l !! i with
  | Some x => Ok x
  | None => Raise IndexError
  end.

End Program.

Declare Scope py_scope.
Delimit Scope py_scope with py.
Notation "x <- m ;; k" := (bind m (fun x => k))
  (at level 100, m at next level, right associativity) : py_scope.
Notation "m ;;; k" := (bind m (fun _ => k))
  (at level 100, right associativity) : py_scope.

Section Selection.
Context {F : Type} `{SF : Scalar F} `{NL : NumLib F}.
Local Open Scope py_scope.
Local Open Scope res_scope.

(** [for nn in range(n): body] *)
Fixpoint for_each (l : list nat) (body : nat -> M F unit) : M F unit :=
  match l with
  | [] => ret tt
  | nn :: l' => body nn ;;; for_each l' body
  end.

(** The same loop when the body may [return] a value: [Some v] leaves
    the loop with [v]. *)
Fixpoint for_each_return {R} (l : list nat) (body : nat -> M F (option R))
  : M F (option R) :=
  match l with
  | [] => ret None
  | nn :: l' =>
      r <- body nn ;;
      match r with
      | Some v => ret (Some v)
      | None => for_each_return l' body
      end
  end.

(** *** get_Ct *)
Definition get_Ct (X Y : ndarray F) (alpha regularization : F) : res (ndarray F) :=
  try! cov := matmul (transpose X) X in
  try! eig := sorted_eig cov (Some regularization) None in
  let v_C := fst eig in
  let U_C := snd eig in
  let keep := map (fun v => fltb regularization v) v_C in
  try! U_C := mask_columns U_C keep in
  try! v_C := mask_vector v_C keep in
  try! Csqrt := (try! t := matmul U_C (diag (map fsqrt v_C)) in
                 matmul t (transpose U_C)) in
  try! Cinv := (try! t := matmul U_C (diag (map (fdiv f1) v_C)) in
                matmul t (transpose U_C)) in
  try! XtY := matmul (transpose X) Y in
  try! C_lr := matmul Cinv XtY in
  try! C_lr := matmul Csqrt C_lr in
  try! C_lr := matmul C_lr (transpose C_lr) in
  let C_pca := cov in
  zip_arrays fadd (scale alpha C_pca) (scale (fsub f1 alpha) C_lr).

(** The covariance as the documentation words it, with
    [C_lr = Csqrt . (Cinv . XtY) . (Cinv . XtY)^T]; everything else as
    in [get_Ct]. *)
Definition get_Ct_as_documented (X Y : ndarray F) (alpha regularization : F)
  : res (ndarray F) :=
  try! cov := matmul (transpose X) X in
  try! eig := sorted_eig cov (Some regularization) None in
  let v_C := fst eig in
  let U_C := snd eig in
  let keep := map (fun v => fltb regularization v) v_C in
  try! U_C := mask_columns U_C keep in
  try! v_C := mask_vector v_C keep in
  try! Csqrt := (try! t := matmul U_C (diag (map fsqrt v_C)) in
                 matmul t (transpose U_C)) in
  try! Cinv := (try! t := matmul U_C (diag (map (fdiv f1) v_C)) in
                matmul t (transpose U_C)) in
  try! XtY := matmul (transpose X) Y in
  try! W := matmul Cinv XtY in
  try! C_lr := (try! t := matmul Csqrt W in matmul t (transpose W)) in
  zip_arrays fadd (scale alpha cov) (scale (fsub f1 alpha) C_lr).

(** *** The deflation shared by both selections

    [v = Acopy[:, j] / np.sqrt(np.matmul(Acopy[:, j], Acopy[:, j]))]
    [for i in range(Acopy.shape[1]): Acopy[:, i] -= v * np.dot(v, Acopy[:, i])] *)
Definition unit_column (Ac : ndarray F) (j : nat) : list F :=
  let c := column Ac j in
  map (fun x => fdiv x (fsqrt (dot c c))) c.

Definition deflate_columns (v : list F) (Ac : ndarray F) : ndarray F :=
  fold_left
    (fun Ac i =>
       let c := column Ac i in
       let d := dot v c in
       set_column Ac i
                  (map (fun p => fsub (fst p) (fmul (snd p) d)) (combine c v)))
    (seq 0 (ncols Ac)) Ac.

Definition deflate (Acopy : loc) (j : nat) : M F unit :=
  Ac <- read_arr Acopy ;;
  if j <? ncols Ac
  then write Acopy (Arr (deflate_columns (unit_column Ac j) Ac))
  else raise IndexError.

(** [(D[:k]**2.0).sum(axis=0)] *)
Definition leverage (D : ndarray F) (k : nat) : list F :=
  map (fun j => fsum (map (fun i => fmul (get D i j) (get D i j))
                          (seq 0 (Nat.min k (nrows D)))))
      (seq 0 (ncols D)).

(** [(np.real(U)[:, :k]**2.0).sum(axis=1)] on a real array. *)
Definition row_scores (U : ndarray F) (k : nat) : list F :=
  map (fun i => fsum (map (fun j => fmul (get U i j) (get U i j))
                          (seq 0 (Nat.min k (ncols U)))))
      (seq 0 (nrows U)).

(** [if idxs is None: idxs = []] *)
Definition idxs_or_new (idxs : option loc) : M F loc :=
  match idxs with
  | None => alloc (Lst [])
  | Some l => ret l
  end.

(** [list(idxs)] *)
Definition list_copy (idxs : loc) : M F loc :=
  ix <- read_list idxs ;; alloc (Lst ix).

(** [A.copy()] *)
Definition array_copy (A : loc) : M F loc :=
  a <- read_arr A ;; alloc (Arr a).

(** [idxs.append(i)] *)
Definition list_append (idxs : loc) (i : nat) : M F unit :=
  ix <- read_list idxs ;; write idxs (Lst (ix ++ [i])).

(** *** svd_select *)

(** One selection: the scores of the truncated SVD, the chosen
    indices zeroed, the first maximum. *)
Definition svd_pick (k : nat) (Ac : ndarray F) (ix : list nat) : res nat :=
  try! usv := svds Ac k in
  let D := snd usv in
  try! pi := zero_at (leverage D k) ix in
  argmax pi.

Definition svd_round (Acopy idxs : loc) (k : nat) (nn : nat) : M F unit :=
  ix <- read_list idxs ;;
  (if length ix <=? nn
   then
     Ac <- read_arr Acopy ;;
     i <- lift (svd_pick k Ac ix) ;;
     list_append idxs i
   else ret tt) ;;;
  ix <- read_list idxs ;;
  j <- lift (list_get ix nn) ;;
  deflate Acopy j.

Definition svd_select (A : loc) (n k : nat) (idxs : option loc) : M F loc :=
  idxs <- idxs_or_new idxs ;;
  Acopy <- array_copy A ;;
  for_each (seq 0 n) (svd_round Acopy idxs k) ;;;
  list_copy idxs.

(** *** update *)
Definition update (Y_copy : loc) (X_c : ndarray F) : M F unit :=
  v <- lift (try! G := matmul (transpose X_c) X_c in pinv G) ;;
  v <- lift (matmul X_c v) ;;
  v <- lift (matmul v (transpose X_c)) ;;
  Y <- read_arr Y_copy ;;
  HY <- lift (matmul v Y) ;;
  R <- lift (zip_arrays fsub Y HY) ;;
  write Y_copy (Arr R).

(** *** pcovr_select

    The message printed before the early return is not modelled. *)

(** One selection, once the covariance has been built. *)
Definition pcovr_pick (k : nat) (Ct : ndarray F) (ix : list nat) : res nat :=
  try! eig := sorted_eig Ct None (Some k) in
  let U_Ct := snd eig in
  try! pi := zero_at (row_scores U_Ct k) ix in
  argmax pi.

Definition pcovr_round (Acopy Ycopy idxs : loc) (alpha : F) (k : nat) (nn : nat)
  : M F (option loc) :=
  ix <- read_list idxs ;;
  early <- (if length ix <=? nn
            then
              Ac <- read_arr Acopy ;;
              Yc <- read_arr Ycopy ;;
              match get_Ct Ac Yc alpha f_default_reg with
              | Raise _ => r <- list_copy idxs ;; ret (Some r)
              | Ok Ct =>
                  j <- lift (pcovr_pick k Ct ix) ;;
                  list_append idxs j ;;;
                  ret None
              end
            else ret None) ;;
  match early with
  | Some r => ret (Some r)
  | None =>
      ix <- read_list idxs ;;
      j <- lift (list_get ix nn) ;;
      deflate Acopy j ;;;
      Ac <- read_arr Acopy ;;
      X_c <- lift (take_columns Ac ix) ;;
      update Ycopy X_c ;;;
      ret None
  end.

Definition pcovr_select (A : loc) (n : nat) (Y : loc) (alpha : F) (k : nat)
           (idxs : option loc) : M F loc :=
  Acopy <- array_copy A ;;
  Ycopy <- array_copy Y ;;
  idxs <- idxs_or_new idxs ;;
  early <- for_each_return (seq 0 n) (pcovr_round Acopy Ycopy idxs alpha k) ;;
  match early with
  | Some r => ret r
  | None => list_copy idxs
  end.

End Selection.

(** ** The selection loops as functions of the working values

    The two loops only touch the working copies and the index list. The
    functions below compute, from the values these hold when a loop
    starts, the values they hold when it stops and how it stops; the
    run lemmas further down show that the loops in the store do exactly
    this. *)

Section Rounds.
Context {F : Type} `{SF : Scalar F} `{NL : NumLib F}.
Local Open Scope res_scope.

Definition deflate_array (Ac : ndarray F) (j : nat) : res (ndarray F) :=
  if j <? ncols Ac
  then Ok (deflate_columns (unit_column Ac j) Ac)
  else Raise IndexError.

Definition update_array (Y X_c : ndarray F) : res (ndarray F) :=
  try! v := (try! G := matmul (transpose X_c) X_c in pinv G) in
  try! v := matmul X_c v in
  try! v := matmul v (transpose X_c) in
  try! HY := matmul v Y in
  zip_arrays fsub Y HY.

(** One round of [svd_select] on (working copy, index list). *)
Definition svd_round_on (k nn : nat) (Ac : ndarray F) (ix : list nat)
  : ndarray F * list nat * res unit :=
  match (if length ix <=? nn
         then try! i := svd_pick k Ac ix in Ok (ix ++ [i])
         else Ok ix) with
  | Raise e => (Ac, ix, Raise e)
  | Ok ix1 =>
      match (try! j := list_get ix1 nn in deflate_array Ac j) with
      | Raise e => (Ac, ix1, Raise e)
      | Ok Ac1 => (Ac1, ix1, Ok tt)
      end
  end.

Fixpoint svd_rounds (k : nat) (rounds : list nat) (Ac : ndarray F) (ix : list nat)
  : ndarray F * list nat * res unit :=
  match rounds with
  | [] => (Ac, ix, Ok tt)
  | nn :: rest =>
      match svd_round_on k nn Ac ix with
      | (Ac1, ix1, Ok _) => svd_rounds k rest Ac1 ix1
      | (Ac1, ix1, Raise e) => (Ac1, ix1, Raise e)
      end
  end.

(** One round of [pcovr_select] on (working copies, index list);
    [Ok true] is the early return. *)
Definition pcovr_round_on (alpha : F) (k nn : nat)
           (Ac Yc : ndarray F) (ix : list nat)
  : ndarray F * ndarray F * list nat * res bool :=
  match (if length ix <=? nn
         then match get_Ct Ac Yc alpha f_default_reg with
              | Raise _ => Ok None
              | Ok Ct => try! j := pcovr_pick k Ct ix in Ok (Some (ix ++ [j]))
              end
         else Ok (Some ix)) with
  | Raise e => (Ac, Yc, ix, Raise e)
  | Ok None => (Ac, Yc, ix, Ok true)
  | Ok (Some ix1) =>
      match (try! j := list_get ix1 nn in deflate_array Ac j) with
      | Raise e => (Ac, Yc, ix1, Raise e)
      | Ok Ac1 =>
          match (try! X_c := take_columns Ac1 ix1 in update_array Yc X_c) with
          | Raise e => (Ac1, Yc, ix1, Raise e)
          | Ok Yc1 => (Ac1, Yc1, ix1, Ok false)
          end
      end
  end.

Fixpoint pcovr_rounds (alpha : F) (k : nat) (rounds : list nat)
         (Ac Yc : ndarray F) (ix : list nat)
  : ndarray F * ndarray F * list nat * res bool :=
  match rounds with
  | [] => (Ac, Yc, ix, Ok false)
  | nn :: rest =>
      match pcovr_round_on alpha k nn Ac Yc ix with
      | (Ac1, Yc1, ix1, Ok false) => pcovr_rounds alpha k rest Ac1 Yc1 ix1
      | other => other
      end
  end.


(** What a call leaves to its caller: the contents of the list it
    returns, or the exception. *)
Definition outcome (run : store F * res loc) : res (list nat) :=
  match run with
  | (s, Ok r) => match s !! r with
                 | Some (Lst ix) => Ok ix
                 | _ => Raise TypeError
                 end
  | (_, Raise e) => Raise e
  end.

(** The contents of the caller's resume list ([None] standing for
    the empty list the function creates). *)
Definition resume_list (s : store F) (idxs : option loc) (ix : list nat) : Prop :=
  match idxs with
  | None => ix = []
  | Some l => s !! l = Some (Lst ix)
  end.

End Rounds.

(** ** The class CUR *)

Section CURClass.
Context {F : Type} `{SF : Scalar F} `{NL : NumLib F}.
Local Open Scope py_scope.
Local Open Scope res_scope.

(** The keyword arguments of [params] that the two selections read. *)
Record params : Type := Params {
  p_k : option nat;
  p_Y : option loc;
  p_alpha : option F
}.

(** [select(A, n, idxs=..., **params)] *)
Definition select_fn : Type := loc -> nat -> option loc -> params -> M F loc.

Definition svd_entry : select_fn :=
  fun A n idxs p => svd_select A n (default 1 (p_k p)) idxs.

(** [Y] and [alpha] have no default: calling without them is a
    TypeError. *)
Definition pcovr_entry : select_fn :=
  fun A n idxs p =>
    match p_Y p, p_alpha p with
    | Some Y, Some alpha => pcovr_select A n Y alpha (default 1 (p_k p)) idxs
    | _, _ => raise TypeError
    end.

(** [selections = dict(svd=svd_select, pcovr=pcovr_select)] *)
Definition selections (name : string) : option select_fn :=
  if String.eqb name "svd" then Some svd_entry
  else if String.eqb name "pcovr" then Some pcovr_entry
  else None.

Inductive pi_function : Type :=
| ByName (name : string)
| Callable (f : select_fn).

Record CUR : Type := MkCUR {
  self_A : loc;
  self_symmetric : bool;
  self_fs : bool;
  self_select : option select_fn;
  self_params : params;
  self_idx_c : option loc;
  self_idx_r : option loc
}.

Definition set_idx (self : CUR) (idx_c idx_r : option loc) : CUR :=
  {| self_A := self_A self;
     self_symmetric := self_symmetric self;
     self_fs := self_fs self;
     self_select := self_select self;
     self_params := self_params self;
     self_idx_c := idx_c;
     self_idx_r := idx_r |}.

(** Calling [self.select]; [None] is not callable. *)
Definition call_select (self : CUR) : select_fn :=
  match self_select self with
  | Some f => f
  | None => fun _ _ _ _ => raise TypeError
  end.

(** [range(n)] with [n] possibly [None]. *)
Definition int_of (n : option nat) : M F nat :=
  match n with
  | Some n => ret n
  | None => raise TypeError
  end.

(** [self.idx] used as a list: [None] has no length. *)
Definition list_of (idx : option loc) : M F (list nat) :=
  match idx with
  | Some l => read_list l
  | None => raise TypeError
  end.

(** *** compute_idx *)
Definition compute_idx (self : CUR) (n_c : nat) (n_r : option nat) : M F (loc * loc) :=
  idx_c <- call_select self (self_A self) n_c (self_idx_c self) (self_params self) ;;
  if self_fs self
  then
    a <- read_arr (self_A self) ;;
    idx_r <- alloc (Lst (seq 0 (ncols a))) ;;
    ret (idx_c, idx_r)
  else if negb (self_symmetric self)
  then
    a <- read_arr (self_A self) ;;
    At <- alloc (Arr (transpose a)) ;;
    n_r <- int_of n_r ;;
    idx_r <- call_select self At n_r (self_idx_r self) (self_params self) ;;
    ret (idx_c, idx_r)
  else ret (idx_c, idx_c).

(** The indices [compute] goes on with, and the instance with its
    caches updated. *)
Definition resolve_idx (self : CUR) (n_c : nat) (n_r : option nat)
  : M F (CUR * (list nat * list nat)) :=
  let recompute :=
    ii <- compute_idx self n_c n_r ;;
    ic <- read_list (fst ii) ;;
    ir <- read_list (snd ii) ;;
    ret (set_idx self (Some (fst ii)) (Some (snd ii)), (ic, ir)) in
  match self_idx_c self, (negb (self_fs self) && negb (bool_decide (is_Some (self_idx_r self)))) with
  | None, _ => recompute
  | Some _, true => recompute
  | Some lc, false =>
      cached_c <- read_list lc ;;
      short <- (if length cached_c <? n_c then ret true
                else cached_r <- list_of (self_idx_r self) ;;
                     n_r <- int_of n_r ;;
                     ret (length cached_r <? n_r)) ;;
      if (short : bool) then recompute
      else
        cached_r <- list_of (self_idx_r self) ;;
        n_r <- int_of n_r ;;
        ret (self, (take n_c cached_c, take n_r cached_r))
  end.

(** *** compute *)
Definition compute (self : CUR) (n_c : nat) (n_r : option nat)
  : M F (CUR * (ndarray F * ndarray F * ndarray F)) :=
  a <- read_arr (self_A self) ;;
  let n_r := if self_fs self then Some (ncols a)
             else if self_symmetric self && negb (bool_decide (is_Some n_r)) then Some n_c
             else n_r in
  si <- resolve_idx self n_c n_r ;;
  let self := fst si in
  let idx_c := fst (snd si) in
  let idx_r := snd (snd si) in
  a <- read_arr (self_A self) ;;
  A_c <- lift (take_columns a idx_c) ;;
  A_r <- (if self_symmetric self && negb (self_fs self) then ret (transpose A_c)
          else if self_fs self then ret a
          else lift (take_rows a idx_r)) ;;
  S <- lift (try! Sc := pinv A_c in
             try! ScA := matmul Sc a in
             try! Sr := pinv A_r in
             matmul ScA Sr) ;;
  ret (self, (A_c, S, A_r)).

(** [np.linalg.norm] of a two-dimensional array (Frobenius). *)
Definition norm (X : ndarray F) : F :=
  let flat := concat (rows X) in
  fsqrt (dot flat flat).

(** *** loss *)
Definition loss (self : CUR) (n_c : nat) (n_r : option nat) : M F (CUR * F) :=
  st <- compute self n_c n_r ;;
  let self := fst st in
  let A_c := fst (fst (snd st)) in
  let S := snd (fst (snd st)) in
  let A_r := snd (snd st) in
  a <- read_arr (self_A self) ;;
  err <- lift (try! SA := matmul S A_r in
               try! approx := matmul A_c SA in
               zip_arrays fsub a approx) ;;
  ret (self, fdiv (norm err) (norm a)).

(** *** __init__

    The warning printed for a PCovR selection without [Y] and [alpha]
    is not modelled. *)
Definition CUR_init (matrix : loc) (precompute : option (nat + nat * option nat))
           (feature_select : bool) (pi : pi_function)
           (symmetry_tolerance : F) (p : params) : M F CUR :=
  a <- read_arr matrix ;;
  sym <- lift (symmetric_flag a symmetry_tolerance) ;;
  let self := {| self_A := matrix;
                 self_symmetric := sym;
                 self_fs := feature_select;
                 self_select := match pi with
                                | ByName name => selections name
                                | Callable f => Some f
                                end;
                 self_params := p;
                 self_idx_c := None;
                 self_idx_r := None |} in
  match precompute with
  | None => ret self
  | Some (inl n) =>
      ii <- compute_idx self n (Some n) ;;
      ret (set_idx self (Some (fst ii)) (Some (snd ii)))
  | Some (inr (n_c, n_r)) =>
      ii <- compute_idx self n_c n_r ;;
      ret (set_idx self (Some (fst ii)) (Some (snd ii)))
  end.

End CURClass.

Arguments params F : clear implicits.
Arguments select_fn F : clear implicits.
Arguments CUR F : clear implicits.
Arguments pi_function F : clear implicits.

(** ** A reference library on a few float64 arrays

    For the concrete runs below the three routines are given by tables:
    each entry pairs an array with a factorisation of it that can be
    checked by hand (the arrays are diagonal, their singular and eigen
    vectors are unit vectors of the axes, and the pseudo-inverse of a
    diagonal array inverts its non-zero entries). An array outside the
    tables raises. *)

Definition mat (r c : nat) (l : list (list float)) : ndarray float :=
  @NdArray float r c l.

Definition float_array_eqb (M N : ndarray float) : bool :=
  shape_eqb M N
  && forallb (fun i => forallb (fun j => PrimFloat.eqb (get M i j) (get N i j))
                               (seq 0 (ncols M)))
             (seq 0 (nrows M)).

Definition option_float_eqb (x y : option float) : bool :=
  match x, y with
  | Some a, Some b => PrimFloat.eqb a b
  | None, None => true
  | _, _ => false
  end.

Definition option_nat_eqb (x y : option nat) : bool :=
  match x, y with
  | Some a, Some b => a =? b
  | None, None => true
  | _, _ => false
  end.

Definition table_find {K X} (same : K -> K -> bool) (tbl : list (K * res X)) (key : K)
  : res X :=
  match find (fun entry => same (fst entry) key) tbl with
  | Some entry => snd entry
  | None => Raise LinAlgError
  end.

(** Truncated SVD, [k = 1]: [(U, s, Vt)]. On the zero array every unit
    vector is a singular vector for the singular value 0. *)
Definition svds_table : list (ndarray float * res (ndarray float * list float * ndarray float)) :=
  [ (mat 2 2 [[2; 0]; [0; 1]], Ok (mat 2 1 [[1]; [0]], [2], mat 1 2 [[1; 0]]));
    (mat 2 2 [[0; 0]; [0; 1]], Ok (mat 2 1 [[0]; [1]], [1], mat 1 2 [[0; 1]]));
    (mat 2 2 [[1; 0]; [0; 0]], Ok (mat 2 1 [[1]; [0]], [1], mat 1 2 [[1; 0]]));
    (mat 2 2 [[0; 0]; [0; 0]], Ok (mat 2 1 [[1]; [0]], [0], mat 1 2 [[1; 0]])) ]%float.

(** Pseudo-inverses. *)
Definition pinv_table : list (ndarray float * res (ndarray float)) :=
  [ (mat 1 1 [[0]], Ok (mat 1 1 [[0]]));
    (mat 1 1 [[4]], Ok (mat 1 1 [[0.25]]));
    (mat 2 2 [[0; 0]; [0; 0]], Ok (mat 2 2 [[0; 0]; [0; 0]]));
    (mat 2 1 [[2]; [0]], Ok (mat 1 2 [[0.5; 0]]));
    (mat 1 2 [[2; 0]], Ok (mat 2 1 [[0.5]; [0]]));
    (mat 2 2 [[2; 0]; [0; 1]], Ok (mat 2 2 [[0.5; 0]; [0; 1]])) ]%float.

(** Modelled from the spec: [sorted_eig] of [utilities/general.py],
    which is not among the sources. It "returns eigenpairs sorted by
    descending eigenvalue, optionally truncated to the top n or filtered
    below a thresh", and the covariance construction "fails ... if this
    leaves zero eigenvectors": the zero array with a threshold raises. *)
Definition sorted_eig_table
  : list (ndarray float * option float * option nat * res (list float * ndarray float)) :=
  [ (mat 2 2 [[4; 0]; [0; 1]], Some f_default_reg, None,
     Ok ([4; 1], mat 2 2 [[1; 0]; [0; 1]]));
    (mat 2 2 [[4; 0]; [0; 1]], None, Some 1%nat,
     Ok ([4], mat 2 1 [[1]; [0]]));
    (mat 2 2 [[0; 0]; [0; 1]], Some f_default_reg, None,
     Ok ([1; 0], mat 2 2 [[0; 1]; [1; 0]]));
    (mat 2 2 [[0; 0]; [0; 1]], None, Some 1%nat,
     Ok ([1], mat 2 1 [[0]; [1]]));
    (mat 2 2 [[1; 0]; [0; 0]], Some f_default_reg, None,
     Ok ([1; 0], mat 2 2 [[1; 0]; [0; 1]]));
    (mat 2 2 [[1; 0]; [0; 0]], None, Some 1%nat,
     Ok ([1], mat 2 1 [[1]; [0]]));
    (mat 2 2 [[0; 0]; [0; 0]], Some f_default_reg, None,
     Raise LinAlgError) ]%float.

#[local] Instance reference_lib : NumLib float := {
  svds := fun M k =>
    if k =? 1 then table_find float_array_eqb svds_table M else Raise ValueError;
  pinv := table_find float_array_eqb pinv_table;
  sorted_eig := fun M thresh n =>
    table_find (fun key1 key2 =>
                  float_array_eqb (fst (fst key1)) (fst (fst key2))
                  && option_float_eqb (snd (fst key1)) (snd (fst key2))
                  && option_nat_eqb (snd key1) (snd key2))
               (map (fun e => (fst (fst (fst e)), snd (fst (fst e)), snd (fst e), snd e))
                    sorted_eig_table)
               (M, thresh, n)
}.

(** The arrays of the examples. *)
Definition A_full : ndarray float := mat 2 2 [[2; 0]; [0; 1]]%float.
Definition A_asym : ndarray float := mat 2 2 [[0; 1]; [0; 0]]%float.
Definition Y_ones : ndarray float := mat 2 1 [[1]; [1]]%float.
Definition Y_huge : ndarray float := mat 2 1 [[0x1p+600]; [0]]%float.

(** A store holding a matrix and a property matrix. *)
Definition store_of (A Y : ndarray float) : store float := [Arr A; Arr Y].

Definition store_full : store float := store_of A_full Y_ones.

(** The same with a resume list [[0]] at location 2. *)
Definition store_resume : store float := [Arr A_full; Arr Y_ones; Lst [0]].

(** [store_full] after one index has been selected: the list the
    selection worked on, its working copy, and the list it returned. *)
Definition store_one : store float :=
  [Arr A_full; Arr Y_ones; Lst [0];
   Arr (mat 2 2 [[0; 0]; [0; 1]]%float); Lst [0]].

(** [store_full] after [pcovr_select] has selected one index: its two
    working copies, the list it worked on and the list it returned. *)
Definition store_one_pcovr : store float :=
  [Arr A_full; Arr Y_ones;
   Arr (mat 2 2 [[0; 0]; [0; 1]]%float); Arr Y_ones; Lst [0]; Lst [0]].

(** [store_one] after a second index has been selected, resuming from
    the list at location 4. *)
Definition store_two : store float :=
  [Arr A_full; Arr Y_ones; Lst [0];
   Arr (mat 2 2 [[0; 0]; [0; 1]]%float); Lst [0; 1];
   Arr (mat 2 2 [[0; 0]; [0; 0]]%float); Lst [0; 1]].

(** [CUR(A_full)] with the default selection, before and after
    [compute(1)] and [compute(2)]. *)
Definition no_params : params float := @Params float None None None.

Definition cur_at (idx : option nat) : CUR float :=
  @MkCUR float 0 true false (Some svd_entry) no_params idx idx.

Definition cur_fresh : CUR float := cur_at None.
Definition cur_one : CUR float := cur_at (Some 4).

(** A property matrix with one row too few for [A_full], alone and
    with a resume list [[0]] at location 2. *)
Definition Y_short : ndarray float := mat 1 1 [[1]]%float.
Definition store_short : store float := store_of A_full Y_short.
Definition store_short_resume : store float := [Arr A_full; Arr Y_short; Lst [0]].

(** [CUR(A)] for a matrix that was not flagged symmetric, before any
    [compute]. *)
Definition cur_plain : CUR float :=
  @MkCUR float 0 false false (Some svd_entry) no_params None None.

(** The working copy of [A_full] once column 0 has been deflated: its
    column 0 is zero. *)
Definition A_deflated : ndarray float := mat 2 2 [[0; 0]; [0; 1]]%float.




(** ** Vocabulary of the statements *)

Section Vocabulary.
Context {F : Type} `{SF : Scalar F} `{NL : NumLib F}.
Implicit Types (s : store F) (self : CUR F).

(** [s'] extends [s] and holds the same objects as [s] outside
    [cells]. *)
Definition same_except (cells : list loc) s s' : Prop :=
  length s <= length s'
  /\ forall l, l < length s -> ~ In l cells -> s' !! l = s !! l.

(** What a call of a selection function does to the store: the
    objects of the caller stay as they are, except the resume list,
    which ends as [ix']; a list returned is a new object holding
    [ix']. *)
Definition select_effect s (idxs : option loc) (ix' : list nat) (r : res unit)
           (run : store F * res loc) : Prop :=
  length s <= length (fst run)
  /\ (forall l o, s !! l = Some o -> idxs <> Some l -> fst run !! l = Some o)
  /\ (forall li, idxs = Some li -> fst run !! li = Some (Lst ix'))
  /\ match r with
     | Ok _ => exists lr, snd run = Ok lr /\ length s <= lr
                          /\ fst run !! lr = Some (Lst ix')
     | Raise e => snd run = Raise e
     end.

(** How a round of [pcovr_select] ends, against [pcovr_round_on]. *)
Definition round_end s s' (ix' : list nat) (r : res bool)
           (result : res (option loc)) : Prop :=
  match r with
  | Raise e => result = Raise e
  | Ok false => result = Ok None
  | Ok true => exists lr, result = Ok (Some lr) /\ length s <= lr
                          /\ s' !! lr = Some (Lst ix')
  end.

(** The outcome of the rounds of [pcovr_select], early return or not. *)
Definition forget (r : res bool) : res unit :=
  match r with
  | Ok _ => Ok tt
  | Raise e => Raise e
  end.


(** The row count [compute] works with. *)
Definition effective_n_r self (a : ndarray F) (n_c : nat) (n_r : option nat)
  : option nat :=
  if self_fs self then Some (ncols a)
  else if self_symmetric self && negb (bool_decide (is_Some n_r)) then Some n_c
       else n_r.

(** One pass of the column loop of the deflation, on column [i]. *)
Definition deflate_step (v : list F) (Ac : ndarray F) (i : nat) : ndarray F :=
  set_column Ac i
             (map (fun p => fsub (fst p) (fmul (snd p) (dot v (column Ac i))))
                  (combine (column Ac i) v)).

(** Every round of [svd_select] that selects picks a column whose
    score, after the chosen columns have been zeroed, is not 0. *)
Fixpoint svd_winners_nonzero (k : nat) (rounds : list nat) (Ac : ndarray F) (ix : list nat)
  : Prop :=
  match rounds with
  | [] => True
  | nn :: rest =>
      match svd_round_on k nn Ac ix with
      | (Ac1, ix1, Ok _) =>
          (length ix <= nn ->
           forall usv pi i,
             svds Ac k = Ok usv -> zero_at (leverage (snd usv) k) ix = Ok pi ->
             argmax pi = Ok i -> pi !! i <> Some f0)
          /\ svd_winners_nonzero k rest Ac1 ix1
      | _ => True
      end
  end.

(** The same for the rounds of [pcovr_select]. *)
Fixpoint pcovr_winners_nonzero (alpha : F) (k : nat) (rounds : list nat)
         (Ac Yc : ndarray F) (ix : list nat) : Prop :=
  match rounds with
  | [] => True
  | nn :: rest =>
      match pcovr_round_on alpha k nn Ac Yc ix with
      | (Ac1, Yc1, ix1, Ok false) =>
          (length ix <= nn ->
           forall Ct eig pi j,
             get_Ct Ac Yc alpha f_default_reg = Ok Ct ->
             sorted_eig Ct None (Some k) = Ok eig ->
             zero_at (row_scores (snd eig) k) ix = Ok pi ->
             argmax pi = Ok j -> pi !! j <> Some f0)
          /\ pcovr_winners_nonzero alpha k rest Ac1 Yc1 ix1
      | _ => True
      end
  end.

(** What [compute] does once the indices are resolved: the three
    factors, from the matrix and the two index lists. *)
Definition compute_tail (self : CUR F) (idx_c idx_r : list nat)
  : M F (CUR F * (ndarray F * ndarray F * ndarray F)) :=
  bind (read_arr (self_A self)) (fun a =>
  bind (lift (take_columns a idx_c)) (fun A_c =>
  bind (if self_symmetric self && negb (self_fs self) then ret (transpose A_c)
        else if self_fs self then ret a
             else lift (take_rows a idx_r)) (fun A_r =>
  bind (lift (res_bind (pinv A_c) (fun Sc =>
              res_bind (matmul Sc a) (fun ScA =>
              res_bind (pinv A_r) (fun Sr => matmul ScA Sr))))) (fun S =>
  ret (self, (A_c, S, A_r)))))).

End Vocabulary.

(** * Facts on arrays *)

Section ArrayFacts.
Context {F : Type} `{SF : Scalar F}.
Implicit Types (M N : ndarray F).

Lemma get_tabulate r c (f : nat -> nat -> F) i j :
  i < r -> j < c -> get (tabulate r c f) i j = f i j.
Proof.
  intros Hi Hj. unfold get, tabulate. simpl.
  rewrite (nth_indep _ [] (map (f 0) (seq 0 c)))
    by (rewrite length_map, length_seq; exact Hi).
  rewrite (map_nth (fun i => map (f i) (seq 0 c)) (seq 0 r) 0 i).
  rewrite seq_nth by exact Hi. simpl.
  rewrite (nth_indep _ f0 (f i 0))
    by (rewrite length_map, length_seq; exact Hj).
  rewrite (map_nth (f i) (seq 0 c) 0 j).
  now rewrite seq_nth by exact Hj.
Qed.

Lemma tabulate_ext r c (f g : nat -> nat -> F) :
  (forall i j, i < r -> j < c -> f i j = g i j) ->
  tabulate r c f = tabulate r c g.
Proof.
  intros H. unfold tabulate. f_equal.
  apply map_ext_in. intros i Hi. apply in_seq in Hi.
  apply map_ext_in. intros j Hj. apply in_seq in Hj.
  apply H; lia.
Qed.

Lemma matmul_Ok M N : ncols M = nrows N -> matmul M N = Ok (mm M N).
Proof. intros H. unfold matmul. now rewrite H, Nat.eqb_refl. Qed.

Lemma zip_arrays_Ok op M N :
  nrows M = nrows N -> ncols M = ncols N ->
  zip_arrays op M N
  = Ok (tabulate (nrows M) (ncols M) (fun i j => op (get M i j) (get N i j))).
Proof.
  intros H1 H2. unfold zip_arrays, shape_eqb. now rewrite H1, H2, !Nat.eqb_refl.
Qed.

Lemma mask_positions_bound mask :
  forallb (fun j => j <? length mask) (mask_positions mask) = true.
Proof.
  apply forallb_forall. intros j Hj. unfold mask_positions in Hj.
  apply filter_In in Hj. destruct Hj as [Hj _]. apply in_seq in Hj.
  apply Nat.ltb_lt. lia.
Qed.

Lemma mask_columns_Ok M mask :
  length mask = ncols M ->
  mask_columns M mask = Ok (select_columns M (mask_positions mask)).
Proof.
  intros H. unfold mask_columns, take_columns.
  rewrite H, Nat.eqb_refl. rewrite <- H.
  now rewrite mask_positions_bound.
Qed.

Lemma mask_vector_Ok (v : list F) mask :
  length mask = length v -> mask_vector v mask = Ok (select_entries v mask).
Proof. intros H. unfold mask_vector. now rewrite H, Nat.eqb_refl. Qed.

Lemma take_columns_Ok M idx :
  Forall (fun j => j < ncols M) idx -> take_columns M idx = Ok (select_columns M idx).
Proof.
  intros H. unfold take_columns.
  replace (forallb (fun j => j <? ncols M) idx) with true; [reflexivity|].
  symmetry. apply forallb_forall. intros j Hj. apply Nat.ltb_lt.
  rewrite List.Forall_forall in H. now apply H.
Qed.

Lemma take_rows_Ok M idx :
  Forall (fun i => i < nrows M) idx -> take_rows M idx = Ok (select_rows M idx).
Proof.
  intros H. unfold take_rows.
  replace (forallb (fun i => i <? nrows M) idx) with true; [reflexivity|].
  symmetry. apply forallb_forall. intros j Hj. apply Nat.ltb_lt.
  rewrite List.Forall_forall in H. now apply H.
Qed.

Lemma zero_at_fold (ix : list nat) :
  forall (pi : list F) j,
    j < length pi ->
    In j ix \/ pi !! j = Some f0 ->
    fold_left (fun p j => <[j := f0]> p) ix pi !! j = Some f0.
Proof.
  induction ix as [|a rest IH]; intros pi j Hlt Hj; simpl.
  - destruct Hj as [[]|Hj]. exact Hj.
  - apply IH; [now rewrite length_insert|].
    destruct (Nat.eq_dec a j) as [->|Hne].
    + right. now apply list_lookup_insert_eq.
    + destruct Hj as [[E|Hin]|Hj]; [congruence|now left|].
      right. now rewrite list_lookup_insert_ne.
Qed.

(** [pi[idxs] = 0] leaves the score 0 at every selected index. *)
Lemma zero_at_selected (pi pi' : list F) ix j :
  zero_at pi ix = Ok pi' -> In j ix -> pi' !! j = Some f0.
Proof.
  unfold zero_at.
  destruct (forallb (fun j => j <? length pi) ix) eqn:E; [|discriminate].
  intros [= <-] Hin.
  apply zero_at_fold; [|now left].
  rewrite forallb_forall in E. apply Nat.ltb_lt. now apply E.
Qed.

(** So an index that wins with a score other than the 0 written there
    has not been selected before. *)
Lemma winner_is_new (pi pi' : list F) ix i :
  zero_at pi ix = Ok pi' -> argmax pi' = Ok i ->
  pi' !! i <> Some f0 -> ~ In i ix.
Proof.
  intros Hz _ Hscore Hin. apply Hscore. eapply zero_at_selected; eauto.
Qed.

(** For a square array whose first diagonal entry is finite, so that
    [|a - a|] is zero, [np.all] is false whatever the other entries
    are, and the flag is [0 < tolerance]. *)
Lemma symmetric_flag_square M m tol :
  nrows M = S m -> ncols M = S m ->
  truthy (fabs (fsub (get M 0 0) (get M 0 0))) = false ->
  symmetric_flag M tol = Ok (fltb f0 tol).
Proof.
  intros Hr Hc Hz. unfold symmetric_flag, shape_eqb.
  destruct M as [r c l]. simpl in *. subst r c.
  rewrite Nat.eqb_refl. simpl.
  unfold zip_arrays, shape_eqb. simpl. rewrite Nat.eqb_refl. simpl.
  unfold np_all. simpl.
  rewrite (get_tabulate (S m) (S m) _ 0 0) by lia.
  unfold transpose. simpl.
  rewrite (get_tabulate (S m) (S m) _ 0 0) by lia.
  now rewrite Hz.
Qed.

End ArrayFacts.

(** * Running the computations *)

Section RunLemmas.
Context {F : Type} `{SF : Scalar F} `{NL : NumLib F}.
Implicit Types (s : store F) (Ac Yc : ndarray F) (ix : list nat).
Local Open Scope py_scope.

Lemma bind_Ok {A B} (m : M F A) (k : A -> M F B) s s' a :
  m s = (s', Ok a) -> bind m k s = k a s'.
Proof. intros H. unfold bind. now rewrite H. Qed.

Lemma bind_Raise {A B} (m : M F A) (k : A -> M F B) s s' e :
  m s = (s', Raise e) -> bind m k s = (s', Raise e).
Proof. intros H. unfold bind. now rewrite H. Qed.

Lemma read_arr_Ok s l a : s !! l = Some (Arr a) -> read_arr l s = (s, Ok a).
Proof. intros H. unfold read_arr. now rewrite H. Qed.

Lemma read_list_Ok s l ix : s !! l = Some (Lst ix) -> read_list l s = (s, Ok ix).
Proof. intros H. unfold read_list. now rewrite H. Qed.

Lemma alloc_lookup_old s (o o' : pyobj F) l :
  s !! l = Some o -> (s ++ [o']) !! l = Some o.
Proof.
  intros H. rewrite lookup_app_l; [exact H|]. eapply lookup_lt_Some, H.
Qed.

Lemma alloc_lookup_new s (o : pyobj F) : (s ++ [o]) !! length s = Some o.
Proof. apply list_lookup_middle. reflexivity. Qed.

Lemma same_except_refl cells s : same_except cells s s.
Proof. split; auto. Qed.

Lemma same_except_trans cells s1 s2 s3 :
  same_except cells s1 s2 -> same_except cells s2 s3 -> same_except cells s1 s3.
Proof.
  intros [L1 H1] [L2 H2]. split; [lia|].
  intros l Hlt Hl. rewrite H2, H1; auto. lia.
Qed.

Lemma same_except_insert cells s l (o : pyobj F) :
  In l cells -> same_except cells s (<[l := o]> s).
Proof.
  intros Hin. split; [rewrite length_insert; lia|].
  intros l' _ Hl'. apply list_lookup_insert_ne. intros ->. contradiction.
Qed.

Lemma same_except_alloc cells s (o : pyobj F) :
  same_except cells s (s ++ [o]).
Proof.
  split; [rewrite length_app; lia|].
  intros l Hlt _. now apply lookup_app_l.
Qed.

Lemma insert_here s l (o o' : pyobj F) :
  s !! l = Some o -> <[l := o']> s !! l = Some o'.
Proof. intros H. apply list_lookup_insert_eq. eapply lookup_lt_Some, H. Qed.

Lemma insert_there s l l' (o : pyobj F) :
  l <> l' -> <[l := o]> s !! l' = s !! l'.
Proof. apply list_lookup_insert_ne. Qed.

Lemma deflate_run s Acopy Ac j :
  s !! Acopy = Some (Arr Ac) ->
  deflate Acopy j s =
    match deflate_array Ac j with
    | Ok Ac' => (<[Acopy := Arr Ac']> s, Ok tt)
    | Raise e => (s, Raise e)
    end.
Proof.
  intros H. unfold deflate, deflate_array.
  rewrite (bind_Ok _ _ _ _ _ (read_arr_Ok _ _ _ H)).
  now destruct (j <? ncols Ac).
Qed.

Lemma list_append_run s idxs ix i :
  s !! idxs = Some (Lst ix) ->
  list_append idxs i s = (<[idxs := Lst (ix ++ [i])]> s, Ok tt).
Proof.
  intros H. unfold list_append.
  now rewrite (bind_Ok _ _ _ _ _ (read_list_Ok _ _ _ H)).
Qed.

Lemma bind_cong_deflate {B} s a Ac j (k : unit -> M F B) :
  s !! a = Some (Arr Ac) ->
  bind (deflate a j) k s =
    match deflate_array Ac j with
    | Ok Ac' => k tt (<[a := Arr Ac']> s)
    | Raise e => (s, Raise e)
    end.
Proof.
  intros H. unfold bind. rewrite (deflate_run _ _ _ _ H).
  now destruct (deflate_array Ac j).
Qed.

Lemma array_copy_run s A a :
  s !! A = Some (Arr a) -> array_copy A s = (s ++ [Arr a], Ok (length s)).
Proof.
  intros H. unfold array_copy.
  now rewrite (bind_Ok _ _ _ _ _ (read_arr_Ok _ _ _ H)).
Qed.

Lemma list_copy_run s idxs ix :
  s !! idxs = Some (Lst ix) -> list_copy idxs s = (s ++ [Lst ix], Ok (length s)).
Proof.
  intros H. unfold list_copy.
  now rewrite (bind_Ok _ _ _ _ _ (read_list_Ok _ _ _ H)).
Qed.

(** The second half of a round: [idxs[nn]] is read and the working
    copy deflated with that column. *)
Lemma deflate_part_run s a i nn Ac ix :
  s !! a = Some (Arr Ac) -> s !! i = Some (Lst ix) ->
  (ix <- read_list i ;; j <- lift (list_get ix nn) ;; deflate a j) s =
    match res_bind (list_get ix nn) (fun j => deflate_array Ac j) with
    | Ok Ac' => (<[a := Arr Ac']> s, Ok tt)
    | Raise e => (s, Raise e)
    end.
Proof.
  intros Ha Hi.
  rewrite (bind_Ok _ _ _ _ _ (read_list_Ok _ _ _ Hi)).
  destruct (list_get ix nn) as [j|e] eqn:Ej; simpl.
  - rewrite (bind_Ok _ _ s s j) by reflexivity. now apply deflate_run.
  - now rewrite (bind_Raise _ _ s s e).
Qed.

(** A round of [svd_select] in the store is [svd_round_on] on the two
    cells it works on. *)
Lemma svd_round_run s a i k nn Ac ix :
  a <> i -> s !! a = Some (Arr Ac) -> s !! i = Some (Lst ix) ->
  exists s',
    svd_round a i k nn s = (s', snd (svd_round_on k nn Ac ix))
    /\ s' !! a = Some (Arr (fst (fst (svd_round_on k nn Ac ix))))
    /\ s' !! i = Some (Lst (snd (fst (svd_round_on k nn Ac ix))))
    /\ same_except [a; i] s s'.
Proof.
  intros Hne Ha Hi.
  unfold svd_round, svd_round_on.
  rewrite (bind_Ok _ _ _ _ _ (read_list_Ok _ _ _ Hi)).
  destruct (length ix <=? nn).
  - unfold bind at 1.
    rewrite (bind_Ok _ _ _ _ _ (read_arr_Ok _ _ _ Ha)).
    destruct (svd_pick k Ac ix) as [i0|e] eqn:Ep; simpl.
    + rewrite (bind_Ok _ _ s s i0) by reflexivity.
      rewrite (list_append_run _ _ _ _ Hi).
      assert (Ha' : <[i := Lst (ix ++ [i0])]> s !! a = Some (Arr Ac))
        by (rewrite insert_there by congruence; exact Ha).
      assert (Hi' : <[i := Lst (ix ++ [i0])]> s !! i = Some (Lst (ix ++ [i0])))
        by (eapply insert_here, Hi).
      rewrite (deflate_part_run _ _ _ nn _ _ Ha' Hi').
      destruct (res_bind (list_get (ix ++ [i0]) nn) (fun j => deflate_array Ac j)) as [Ac1|e];
        simpl; eexists; (split; [reflexivity|]).
      * split; [eapply insert_here, Ha'|].
        split; [rewrite insert_there by congruence; exact Hi'|].
        eapply same_except_trans; apply same_except_insert; simpl; auto.
      * split; [exact Ha'|]. split; [exact Hi'|].
        apply same_except_insert; simpl; auto.
    + exists s. repeat split; auto.
  - unfold bind at 1. simpl.
    rewrite (deflate_part_run _ _ _ nn _ _ Ha Hi).
    destruct (res_bind (list_get ix nn) (fun j => deflate_array Ac j)) as [Ac1|e];
      simpl; eexists; (split; [reflexivity|]).
    + split; [eapply insert_here, Ha|].
      split; [rewrite insert_there by congruence; exact Hi|].
      apply same_except_insert; simpl; auto.
    + repeat split; auto.
Qed.

Lemma svd_loop_run a i k rounds :
  a <> i ->
  forall s Ac ix,
    s !! a = Some (Arr Ac) -> s !! i = Some (Lst ix) ->
    exists s',
      for_each rounds (svd_round a i k) s = (s', snd (svd_rounds k rounds Ac ix))
      /\ s' !! a = Some (Arr (fst (fst (svd_rounds k rounds Ac ix))))
      /\ s' !! i = Some (Lst (snd (fst (svd_rounds k rounds Ac ix))))
      /\ same_except [a; i] s s'.
Proof.
  intros Hne. induction rounds as [|nn rest IH]; intros s Ac ix Ha Hi.
  - exists s. simpl. repeat split; auto.
  - simpl.
    destruct (svd_round_run s a i k nn Ac ix Hne Ha Hi) as (s1 & Hrun & Ha1 & Hi1 & Hs1).
    destruct (svd_round_on k nn Ac ix) as [[Ac1 ix1] [[]|e]]; simpl in *.
    + rewrite (bind_Ok _ _ _ _ _ Hrun).
      destruct (IH s1 Ac1 ix1 Ha1 Hi1) as (s2 & Hrun2 & Ha2 & Hi2 & Hs2).
      exists s2. repeat split; auto;
        try apply (same_except_trans _ _ _ _ Hs1 Hs2).
    + rewrite (bind_Raise _ _ _ _ _ Hrun).
      exists s1. repeat split; auto; apply Hs1.
Qed.

Lemma svd_select_run s A a n k idxs ix0 :
  s !! A = Some (Arr a) -> resume_list s idxs ix0 ->
  select_effect s idxs (snd (fst (svd_rounds k (seq 0 n) a ix0)))
                (snd (svd_rounds k (seq 0 n) a ix0))
                (svd_select A n k idxs s).
Proof.
  intros HA Hix. unfold svd_select.
  (* the index list: the caller's, or a new one *)
  assert (exists s0 li,
             idxs_or_new idxs s = (s0, Ok li)
             /\ s0 !! li = Some (Lst ix0)
             /\ length s <= length s0 /\ li < length s0
             /\ (idxs = None -> length s <= li)
             /\ (forall l, idxs = Some l -> l = li)
             /\ (forall l o, s !! l = Some o -> s0 !! l = Some o)
             /\ (forall l, l < length s0 -> l <> li -> l < length s))
    as (s0 & li & Hnew & Hli & Hlen0 & Hlt0 & Hfresh & Hsame & Hold0 & Hback).
  { destruct idxs as [l|]; simpl in *.
    - exists s, l. repeat split; auto.
      + eapply lookup_lt_Some, Hix.
      + discriminate.
      + congruence.
    - subst ix0. exists (s ++ [Lst []]), (length s). unfold alloc.
      repeat split; auto using alloc_lookup_new.
      + rewrite length_app. simpl. lia.
      + rewrite length_app. simpl. lia.
      + discriminate.
      + intros l o Hl. eapply alloc_lookup_old, Hl.
      + rewrite length_app. simpl. lia. }
  rewrite (bind_Ok _ _ _ _ _ Hnew).
  (* the working copy *)
  rewrite (bind_Ok _ _ _ _ _ (array_copy_run _ _ _ (Hold0 _ _ HA))).
  set (s1 := s0 ++ [Arr a]).
  assert (Hne : length s0 <> li) by lia.
  assert (Ha1 : s1 !! length s0 = Some (Arr a)) by apply alloc_lookup_new.
  assert (Hi1 : s1 !! li = Some (Lst ix0)) by (eapply alloc_lookup_old, Hli).
  destruct (svd_loop_run (length s0) li k (seq 0 n) Hne s1 a ix0 Ha1 Hi1)
    as (s2 & Hloop & Ha2 & Hi2 & Hlen2 & Hfr2).
  assert (Hlen1 : length s1 = S (length s0))
    by (unfold s1; rewrite length_app; simpl; lia).
  assert (Hkeep : forall l o, s !! l = Some o -> idxs <> Some l -> s2 !! l = Some o).
  { intros l o Hl Hnot.
    assert (l < length s) by (eapply lookup_lt_Some, Hl).
    rewrite Hfr2.
    - eapply alloc_lookup_old, Hold0, Hl.
    - lia.
    - simpl. intros [E|[E|[]]]; [lia|].
      subst l. destruct idxs as [l'|].
      + apply Hnot. f_equal. now apply Hsame.
      + specialize (Hfresh eq_refl). lia. }
  destruct (svd_rounds k (seq 0 n) a ix0) as [[Ac' ix'] [[]|e]]; simpl in *.
  - rewrite (bind_Ok _ _ _ _ _ Hloop).
    rewrite (list_copy_run _ _ _ Hi2).
    unfold select_effect; simpl.
    split; [rewrite length_app; simpl; lia|].
    split; [intros l o Hl Hnot; eapply alloc_lookup_old, Hkeep; eauto|].
    split; [intros l ->; rewrite <- (Hsame l eq_refl) in Hi2;
            eapply alloc_lookup_old, Hi2|].
    exists (length s2). split; [reflexivity|].
    split; [lia|apply alloc_lookup_new].
  - rewrite (bind_Raise _ _ _ _ _ Hloop).
    unfold select_effect; simpl.
    split; [lia|].
    split; [exact Hkeep|].
    split; [intros l ->; now rewrite <- (Hsame l eq_refl) in Hi2|reflexivity].
Qed.

Lemma update_run s y Yc X_c :
  s !! y = Some (Arr Yc) ->
  update y X_c s =
    match update_array Yc X_c with
    | Ok R => (<[y := Arr R]> s, Ok tt)
    | Raise e => (s, Raise e)
    end.
Proof.
  intros H. unfold update, update_array, bind, lift, read_arr, write.
  destruct (res_bind (matmul (transpose X_c) X_c) (fun G => pinv G)) as [v1|e];
    simpl; [|reflexivity].
  destruct (matmul X_c v1) as [v2|e]; simpl; [|reflexivity].
  destruct (matmul v2 (transpose X_c)) as [v3|e]; simpl; [|reflexivity].
  rewrite H.
  destruct (matmul v3 Yc) as [HY|e]; simpl; [|reflexivity].
  now destruct (zip_arrays fsub Yc HY).
Qed.

Lemma pcovr_round_run s a y i alpha k nn Ac Yc ix :
  a <> y -> a <> i -> y <> i ->
  s !! a = Some (Arr Ac) -> s !! y = Some (Arr Yc) -> s !! i = Some (Lst ix) ->
  let R := pcovr_round_on alpha k nn Ac Yc ix in
  exists s' result,
    pcovr_round a y i alpha k nn s = (s', result)
    /\ s' !! a = Some (Arr (fst (fst (fst R))))
    /\ s' !! y = Some (Arr (snd (fst (fst R))))
    /\ s' !! i = Some (Lst (snd (fst R)))
    /\ same_except [a; y; i] s s'
    /\ round_end s s' (snd (fst R)) (snd R) result.
Proof.
  intros Hay Hai Hyi Ha Hy Hi R. subst R.
  unfold pcovr_round, pcovr_round_on.
  rewrite (bind_Ok _ _ _ _ _ (read_list_Ok _ _ _ Hi)).
  (* the part shared by the rounds that go on to deflate *)
  assert (Hrest : forall s1 ix1,
             s1 !! a = Some (Arr Ac) -> s1 !! y = Some (Arr Yc) ->
             s1 !! i = Some (Lst ix1) -> same_except [a; y; i] s s1 ->
             let R := match res_bind (list_get ix1 nn) (fun j => deflate_array Ac j) with
                      | Raise e => (Ac, Yc, ix1, Raise e)
                      | Ok Ac1 =>
                          match res_bind (take_columns Ac1 ix1)
                                         (fun X_c => update_array Yc X_c) with
                          | Raise e => (Ac1, Yc, ix1, Raise e)
                          | Ok Yc1 => (Ac1, Yc1, ix1, Ok false)
                          end
                      end in
             exists s' result,
               (ix <- read_list i ;;
                j <- lift (list_get ix nn) ;;
                deflate a j ;;;
                Ac <- read_arr a ;;
                X_c <- lift (take_columns Ac ix) ;;
                update y X_c ;;;
                ret None) s1 = (s', result)
               /\ s' !! a = Some (Arr (fst (fst (fst R))))
               /\ s' !! y = Some (Arr (snd (fst (fst R))))
               /\ s' !! i = Some (Lst (snd (fst R)))
               /\ same_except [a; y; i] s s'
               /\ round_end s s' (snd (fst R)) (snd R) result).
  { intros s1 ix1 Ha1 Hy1 Hi1 Hs1 R.
    subst R.
    rewrite (bind_Ok _ _ _ _ _ (read_list_Ok _ _ _ Hi1)).
    destruct (list_get ix1 nn) as [j|e] eqn:Ej; simpl.
    2:{ rewrite (bind_Raise _ _ s1 s1 e) by reflexivity.
        exists s1, (Raise e). repeat split; auto; apply Hs1. }
    rewrite (bind_Ok _ _ s1 s1 j) by reflexivity.
    rewrite (bind_cong_deflate s1 a Ac j _ Ha1).
    destruct (deflate_array Ac j) as [Ac1|e]; simpl.
    2:{ exists s1, (Raise e). repeat split; auto; apply Hs1. }
    set (s2 := <[a := Arr Ac1]> s1).
    assert (Ha2 : s2 !! a = Some (Arr Ac1)) by (eapply insert_here, Ha1).
    assert (Hy2 : s2 !! y = Some (Arr Yc))
      by (unfold s2; rewrite insert_there by congruence; exact Hy1).
    assert (Hi2 : s2 !! i = Some (Lst ix1))
      by (unfold s2; rewrite insert_there by congruence; exact Hi1).
    assert (Hs2 : same_except [a; y; i] s s2).
    { eapply same_except_trans; [exact Hs1|].
      apply same_except_insert; simpl; auto. }
    rewrite (bind_Ok _ _ _ _ _ (read_arr_Ok _ _ _ Ha2)).
    destruct (take_columns Ac1 ix1) as [X_c|e]; simpl.
    2:{ rewrite (bind_Raise _ _ s2 s2 e) by reflexivity.
        exists s2, (Raise e). repeat split; auto; apply Hs2. }
    rewrite (bind_Ok _ _ s2 s2 X_c) by reflexivity.
    unfold bind at 1. rewrite (update_run _ _ _ _ Hy2).
    destruct (update_array Yc X_c) as [Yc1|e]; simpl.
    - exists (<[y := Arr Yc1]> s2), (Ok None).
      split; [reflexivity|].
      split; [rewrite insert_there by congruence; exact Ha2|].
      split; [eapply insert_here, Hy2|].
      split; [rewrite insert_there by congruence; exact Hi2|].
      split; [|reflexivity].
      eapply same_except_trans; [exact Hs2|].
      apply same_except_insert; simpl; auto.
    - exists s2, (Raise e). repeat split; auto; apply Hs2. }
  destruct (length ix <=? nn).
  - unfold bind at 1.
    rewrite (bind_Ok _ _ _ _ _ (read_arr_Ok _ _ _ Ha)).
    rewrite (bind_Ok _ _ _ _ _ (read_arr_Ok _ _ _ Hy)).
    destruct (get_Ct Ac Yc alpha f_default_reg) as [Ct|e0].
    + destruct (pcovr_pick k Ct ix) as [j|e] eqn:Ep; simpl.
      * rewrite (bind_Ok _ _ s s j) by reflexivity.
        unfold bind at 1.
        rewrite (list_append_run _ _ _ _ Hi). simpl.
        apply Hrest.
        -- rewrite insert_there by congruence; exact Ha.
        -- rewrite insert_there by congruence; exact Hy.
        -- eapply insert_here, Hi.
        -- apply same_except_insert; simpl; auto.
      * exists s, (Raise e). repeat split; auto.
    + rewrite (bind_Ok _ _ _ _ _ (list_copy_run _ _ _ Hi)). simpl.
      exists (s ++ [Lst ix]), (Ok (Some (length s))).
      split; [reflexivity|].
      split; [eapply alloc_lookup_old, Ha|].
      split; [eapply alloc_lookup_old, Hy|].
      split; [eapply alloc_lookup_old, Hi|].
      split; [apply same_except_alloc|].
      exists (length s). repeat split; auto using alloc_lookup_new.
  - unfold bind at 1. simpl.
    apply Hrest; auto using same_except_refl.
Qed.

Lemma round_end_weaken s0 s s' ix' r result :
  length s0 <= length s -> round_end s s' ix' r result ->
  round_end s0 s' ix' r result.
Proof.
  intros Hle. unfold round_end. destruct r as [[]|e]; auto.
  intros (lr & ? & ? & ?). exists lr. repeat split; auto. lia.
Qed.

Lemma pcovr_loop_run a y i alpha k rounds :
  a <> y -> a <> i -> y <> i ->
  forall s Ac Yc ix,
    s !! a = Some (Arr Ac) -> s !! y = Some (Arr Yc) -> s !! i = Some (Lst ix) ->
    let R := pcovr_rounds alpha k rounds Ac Yc ix in
    exists s' result,
      for_each_return rounds (pcovr_round a y i alpha k) s = (s', result)
      /\ s' !! a = Some (Arr (fst (fst (fst R))))
      /\ s' !! y = Some (Arr (snd (fst (fst R))))
      /\ s' !! i = Some (Lst (snd (fst R)))
      /\ same_except [a; y; i] s s'
      /\ round_end s s' (snd (fst R)) (snd R) result.
Proof.
  intros Hay Hai Hyi.
  induction rounds as [|nn rest IH]; intros s Ac Yc ix Ha Hy Hi R; subst R.
  - exists s, (Ok None). simpl. repeat split; auto.
  - simpl.
    destruct (pcovr_round_run s a y i alpha k nn Ac Yc ix Hay Hai Hyi Ha Hy Hi)
      as (s1 & r1 & Hrun & Ha1 & Hy1 & Hi1 & Hs1 & Hend).
    destruct (pcovr_round_on alpha k nn Ac Yc ix) as [[[Ac1 Yc1] ix1] [[|]|e]];
      simpl in *.
    + destruct Hend as (lr & -> & Hlr & Hlook).
      rewrite (bind_Ok _ _ _ _ _ Hrun).
      exists s1, (Ok (Some lr)). repeat split; auto; try apply Hs1.
      exists lr. auto.
    + subst r1. rewrite (bind_Ok _ _ _ _ _ Hrun).
      destruct (IH s1 Ac1 Yc1 ix1 Ha1 Hy1 Hi1)
        as (s2 & r2 & Hrun2 & Ha2 & Hy2 & Hi2 & Hs2 & Hend2).
      exists s2, r2. repeat split; auto;
        try apply (same_except_trans _ _ _ _ Hs1 Hs2).
      eapply round_end_weaken; [apply Hs1|exact Hend2].
    + subst r1. rewrite (bind_Raise _ _ _ _ _ Hrun).
      exists s1, (Raise e). repeat split; auto; apply Hs1.
Qed.

Lemma pcovr_select_run_copy s A a Y y n alpha k idxs ix0 :
  s !! A = Some (Arr a) -> (s ++ [Arr a]) !! Y = Some (Arr y) ->
  resume_list s idxs ix0 ->
  select_effect s idxs (snd (fst (pcovr_rounds alpha k (seq 0 n) a y ix0)))
                (forget (snd (pcovr_rounds alpha k (seq 0 n) a y ix0)))
                (pcovr_select A n Y alpha k idxs s).
Proof.
  intros HA HYa Hix. unfold pcovr_select.
  rewrite (bind_Ok _ _ _ _ _ (array_copy_run _ _ _ HA)).
  set (sa := s ++ [Arr a]). fold sa in HYa.
  rewrite (bind_Ok _ _ _ _ _ (array_copy_run _ _ _ HYa)).
  set (sy := sa ++ [Arr y]).
  assert (Hlena : length sa = S (length s))
    by (unfold sa; rewrite length_app; simpl; lia).
  assert (Hleny : length sy = S (S (length s)))
    by (unfold sy; rewrite length_app; simpl; lia).
  assert (Holdy : forall l o, s !! l = Some o -> sy !! l = Some o).
  { intros l o Hl. eapply alloc_lookup_old, alloc_lookup_old, Hl. }
  assert (exists s0 li,
             idxs_or_new idxs sy = (s0, Ok li)
             /\ s0 !! li = Some (Lst ix0)
             /\ length sy <= length s0
             /\ (idxs = None -> length s <= li)
             /\ (forall l, idxs = Some l -> l = li /\ l < length s)
             /\ (forall l o, sy !! l = Some o -> s0 !! l = Some o))
    as (s0 & li & Hnew & Hli & Hlen0 & Hfresh & Hsame & Hold0).
  { destruct idxs as [l|]; simpl in *.
    - exists sy, l. repeat split; auto; try discriminate; try congruence.
      injection H as <-. eapply lookup_lt_Some, Hix.
    - subst ix0. exists (sy ++ [Lst []]), (length sy). unfold alloc.
      repeat split; auto using alloc_lookup_new; try discriminate.
      + rewrite length_app. simpl. lia.
      + lia.
      + intros l o Hl. eapply alloc_lookup_old, Hl. }
  rewrite (bind_Ok _ _ _ _ _ Hnew).
  assert (Ha0 : s0 !! length s = Some (Arr a)).
  { apply Hold0. unfold sy. eapply alloc_lookup_old. apply alloc_lookup_new. }
  assert (Hy0 : s0 !! length sa = Some (Arr y)).
  { apply Hold0. apply alloc_lookup_new. }
  assert (Hne1 : length s <> length sa) by lia.
  assert (Hne2 : length s <> li).
  { destruct idxs as [l|].
    - destruct (Hsame l eq_refl). lia.
    - specialize (Hfresh eq_refl). simpl in Hnew. unfold alloc in Hnew.
      injection Hnew as _ <-. lia. }
  assert (Hne3 : length sa <> li).
  { destruct idxs as [l|].
    - destruct (Hsame l eq_refl). lia.
    - simpl in Hnew. unfold alloc in Hnew. injection Hnew as _ <-. lia. }
  destruct (pcovr_loop_run (length s) (length sa) li alpha k (seq 0 n)
                           Hne1 Hne2 Hne3 s0 a y ix0 Ha0 Hy0 Hli)
    as (s2 & r2 & Hloop & Ha2 & Hy2 & Hi2 & [Hlen2 Hfr2] & Hend).
  assert (Hkeep : forall l o, s !! l = Some o -> idxs <> Some l -> s2 !! l = Some o).
  { intros l o Hl Hnot.
    assert (l < length s) by (eapply lookup_lt_Some, Hl).
    rewrite Hfr2.
    - apply Hold0, Holdy, Hl.
    - lia.
    - simpl. intros [E|[E|[E|[]]]]; [lia|lia|].
      subst l. destruct idxs as [l'|].
      + apply Hnot. f_equal. now apply Hsame.
      + specialize (Hfresh eq_refl). lia. }
  assert (Hmine : forall l, idxs = Some l -> s2 !! l = Some (Lst
            (snd (fst (pcovr_rounds alpha k (seq 0 n) a y ix0))))).
  { intros l El. destruct (Hsame l El) as [-> _]. exact Hi2. }
  destruct (pcovr_rounds alpha k (seq 0 n) a y ix0) as [[[Ac' Yc'] ix'] [[|]|e]];
    simpl in *.
  - destruct Hend as (lr & -> & Hlr & Hlook).
    rewrite (bind_Ok _ _ _ _ _ Hloop).
    unfold select_effect; simpl.
    split; [lia|]. split; [exact Hkeep|]. split; [exact Hmine|].
    exists lr. repeat split; auto. lia.
  - subst r2. rewrite (bind_Ok _ _ _ _ _ Hloop).
    rewrite (list_copy_run _ _ _ Hi2).
    unfold select_effect; simpl.
    split; [rewrite length_app; simpl; lia|].
    split; [intros l o Hl Hnot; eapply alloc_lookup_old, Hkeep; eauto|].
    split; [intros l El; eapply alloc_lookup_old, Hmine, El|].
    exists (length s2). split; [reflexivity|].
    split; [lia|apply alloc_lookup_new].
  - subst r2. rewrite (bind_Raise _ _ _ _ _ Hloop).
    unfold select_effect; simpl.
    split; [lia|]. split; [exact Hkeep|]. split; [exact Hmine|reflexivity].
Qed.

Lemma pcovr_select_run s A a Y y n alpha k idxs ix0 :
  s !! A = Some (Arr a) -> s !! Y = Some (Arr y) -> resume_list s idxs ix0 ->
  select_effect s idxs (snd (fst (pcovr_rounds alpha k (seq 0 n) a y ix0)))
                (forget (snd (pcovr_rounds alpha k (seq 0 n) a y ix0)))
                (pcovr_select A n Y alpha k idxs s).
Proof.
  intros HA HY. apply pcovr_select_run_copy; [exact HA|].
  eapply alloc_lookup_old, HY.
Qed.

End RunLemmas.

(** * Properties of the selection loops *)

Section RoundFacts.
Context {F : Type} `{SF : Scalar F} `{NL : NumLib F}.
Implicit Types (Ac Yc : ndarray F) (ix : list nat).

Lemma deflate_columns_shape v Ac :
  nrows (deflate_columns v Ac) = nrows Ac /\ ncols (deflate_columns v Ac) = ncols Ac.
Proof.
  unfold deflate_columns.
  generalize (seq 0 (ncols Ac)). intros l. revert Ac.
  induction l as [|i l IH]; intros Ac; simpl; [auto|].
  destruct (IH (set_column Ac i
                 (map (fun p => fsub (fst p) (fmul (snd p) (dot v (column Ac i))))
                      (combine (column Ac i) v)))) as [H1 H2].
  split; [rewrite H1|rewrite H2]; reflexivity.
Qed.

Lemma deflate_array_Ok Ac j Ac1 :
  deflate_array Ac j = Ok Ac1 ->
  j < ncols Ac /\ nrows Ac1 = nrows Ac /\ ncols Ac1 = ncols Ac.
Proof.
  unfold deflate_array. destruct (j <? ncols Ac) eqn:E; [|discriminate].
  intros [= <-]. apply Nat.ltb_lt in E.
  split; [exact E|apply deflate_columns_shape].
Qed.

(** What a completed round of [svd_select] did. *)
Lemma svd_round_on_Ok k nn Ac ix Ac1 ix1 :
  svd_round_on k nn Ac ix = (Ac1, ix1, Ok tt) ->
  exists j, ix1 !! nn = Some j /\ deflate_array Ac j = Ok Ac1
            /\ ((length ix <= nn /\ exists i, svd_pick k Ac ix = Ok i /\ ix1 = ix ++ [i])
                \/ (nn < length ix /\ ix1 = ix)).
Proof.
  unfold svd_round_on.
  destruct (length ix <=? nn) eqn:E.
  - apply Nat.leb_le in E.
    destruct (svd_pick k Ac ix) as [i|e]; simpl; [|discriminate].
    unfold list_get. destruct ((ix ++ [i]) !! nn) as [j|] eqn:Ej; simpl; [|discriminate].
    destruct (deflate_array Ac j) as [Ac'|e] eqn:Ed; [|discriminate].
    intros [= <- <-]. exists j. repeat split; eauto.
  - apply Nat.leb_gt in E.
    unfold list_get. destruct (ix !! nn) as [j|] eqn:Ej; simpl; [|discriminate].
    destruct (deflate_array Ac j) as [Ac'|e] eqn:Ed; [|discriminate].
    intros [= <- <-]. exists j. repeat split; eauto.
Qed.

(** Whatever a round does, the list it leaves extends the one it
    found, by at most the index it selected. *)
Lemma svd_round_on_extends k nn Ac ix :
  exists new, snd (fst (svd_round_on k nn Ac ix)) = ix ++ new.
Proof.
  unfold svd_round_on.
  destruct (length ix <=? nn).
  - destruct (svd_pick k Ac ix) as [i|e]; simpl.
    + destruct (res_bind (list_get (ix ++ [i]) nn) (fun j => deflate_array Ac j));
        simpl; eauto.
    + exists []. now rewrite app_nil_r.
  - destruct (res_bind (list_get ix nn) (fun j => deflate_array Ac j));
      simpl; exists []; now rewrite app_nil_r.
Qed.

Lemma svd_rounds_extends k rounds :
  forall Ac ix, exists new, snd (fst (svd_rounds k rounds Ac ix)) = ix ++ new.
Proof.
  induction rounds as [|nn rest IH]; intros Ac ix; simpl.
  - exists []. now rewrite app_nil_r.
  - destruct (svd_round_on_extends k nn Ac ix) as [new1 H1].
    destruct (svd_round_on k nn Ac ix) as [[Ac1 ix1] [[]|e]]; simpl in *.
    + destruct (IH Ac1 ix1) as [new2 H2]. rewrite H2, H1.
      exists (new1 ++ new2). now rewrite app_assoc.
    + eauto.
Qed.

Lemma svd_rounds_app k l1 l2 :
  forall Ac ix,
    svd_rounds k (l1 ++ l2) Ac ix =
      match svd_rounds k l1 Ac ix with
      | (Ac1, ix1, Ok _) => svd_rounds k l2 Ac1 ix1
      | (Ac1, ix1, Raise e) => (Ac1, ix1, Raise e)
      end.
Proof.
  induction l1 as [|nn l1 IH]; intros Ac ix; simpl; [reflexivity|].
  destruct (svd_round_on k nn Ac ix) as [[Ac1 ix1] [[]|e]]; auto.
Qed.


(** Rounds [a, a+1, ...] on a list of at least [a] indices: when they
    complete, the list has one index per round and every index used
    to deflate is a column of the array. *)
Lemma svd_rounds_seq k n :
  forall a Ac ix Ac' ix',
    a <= length ix ->
    svd_rounds k (seq a n) Ac ix = (Ac', ix', Ok tt) ->
    length ix' = Nat.max (length ix) (a + n)
    /\ ncols Ac' = ncols Ac
    /\ forall p j, (a <= p /\ p < a + n) -> ix' !! p = Some j -> j < ncols Ac.
Proof.
  induction n as [|n IH]; intros a Ac ix Ac' ix' Hle; simpl.
  - intros [= <- <-]. repeat split; try lia.
  - destruct (svd_round_on k a Ac ix) as [[Ac1 ix1] [[]|e]] eqn:E1; [|discriminate].
    intros Hrest.
    destruct (svd_round_on_Ok _ _ _ _ _ _ E1) as (j & Hj & Hd & Hcase).
    destruct (deflate_array_Ok _ _ _ Hd) as (Hjlt & _ & Hc1).
    assert (Hlen1 : S a <= length ix1 /\ length ix1 = Nat.max (length ix) (S a)).
    { destruct Hcase as [(Hl & i & _ & ->)|(Hl & ->)].
      - rewrite length_app. simpl. lia.
      - lia. }
    destruct (IH (S a) Ac1 ix1 Ac' ix' (proj1 Hlen1) Hrest) as (HL & HC & HB).
    split; [lia|]. split; [congruence|].
    intros p j' Hp Hlook.
    destruct (Nat.eq_dec p a) as [->|Hne].
    + destruct (svd_rounds_extends k (seq (S a) n) Ac1 ix1) as [new Hnew].
      rewrite Hrest in Hnew. simpl in Hnew. subst ix'.
      rewrite lookup_app_l in Hlook by (eapply lookup_lt_Some, Hj).
      congruence.
    + rewrite <- Hc1. apply (HB p j'); [lia|exact Hlook].
Qed.

Lemma outcome_of_effect (s : store F) idxs ix' r run :
  select_effect s idxs ix' r run ->
  outcome run = match r with Ok _ => Ok ix' | Raise e => Raise e end.
Proof.
  destruct run as [s' result]. intros (_ & _ & _ & H). unfold outcome.
  destruct r as [[]|e]; simpl in *.
  - destruct H as (lr & -> & _ & ->). reflexivity.
  - now subst result.
Qed.


Lemma pcovr_round_on_extends alpha k nn Ac Yc ix :
  exists new, snd (fst (pcovr_round_on alpha k nn Ac Yc ix)) = ix ++ new.
Proof.
  assert (Hnil : exists new, ix = ix ++ new) by (exists []; now rewrite app_nil_r).
  assert (Hrest : forall ix1, (exists new, ix1 = ix ++ new) ->
            exists new,
              snd (fst (match res_bind (list_get ix1 nn) (fun j => deflate_array Ac j) with
                        | Raise e => (Ac, Yc, ix1, Raise e)
                        | Ok Ac1 =>
                            match res_bind (take_columns Ac1 ix1)
                                           (fun X_c => update_array Yc X_c) with
                            | Raise e => (Ac1, Yc, ix1, Raise e)
                            | Ok Yc1 => (Ac1, Yc1, ix1, Ok false)
                            end
                        end)) = ix ++ new).
  { intros ix1 H.
    destruct (res_bind (list_get ix1 nn) (fun j => deflate_array Ac j)) as [Ac1|e];
      simpl; [|exact H].
    destruct (res_bind (take_columns Ac1 ix1) (fun X_c => update_array Yc X_c));
      simpl; exact H. }
  unfold pcovr_round_on.
  destruct (length ix <=? nn).
  - destruct (get_Ct Ac Yc alpha f_default_reg) as [Ct|e0]; [|exact Hnil].
    destruct (pcovr_pick k Ct ix) as [j|e]; simpl; [|exact Hnil].
    apply Hrest. eauto.
  - apply Hrest, Hnil.
Qed.

Lemma pcovr_rounds_extends alpha k rounds :
  forall Ac Yc ix,
  exists new, snd (fst (pcovr_rounds alpha k rounds Ac Yc ix)) = ix ++ new.
Proof.
  induction rounds as [|nn rest IH]; intros Ac Yc ix; simpl.
  - exists []. now rewrite app_nil_r.
  - destruct (pcovr_round_on_extends alpha k nn Ac Yc ix) as [new1 H1].
    destruct (pcovr_round_on alpha k nn Ac Yc ix) as [[[Ac1 Yc1] ix1] [[|]|e]];
      simpl in *; eauto.
    destruct (IH Ac1 Yc1 ix1) as [new2 H2]. rewrite H2, H1.
    exists (new1 ++ new2). now rewrite app_assoc.
Qed.

Lemma pcovr_rounds_app alpha k l1 l2 :
  forall Ac Yc ix,
    pcovr_rounds alpha k (l1 ++ l2) Ac Yc ix =
      match pcovr_rounds alpha k l1 Ac Yc ix with
      | (Ac1, Yc1, ix1, Ok false) => pcovr_rounds alpha k l2 Ac1 Yc1 ix1
      | other => other
      end.
Proof.
  induction l1 as [|nn l1 IH]; intros Ac Yc ix; simpl; [reflexivity|].
  destruct (pcovr_round_on alpha k nn Ac Yc ix) as [[[Ac1 Yc1] ix1] [[|]|e]]; auto.
Qed.

(** What a round of [pcovr_select] that goes on to the next did. *)
Lemma pcovr_round_on_goes_on alpha k nn Ac Yc ix Ac1 Yc1 ix1 :
  pcovr_round_on alpha k nn Ac Yc ix = (Ac1, Yc1, ix1, Ok false) ->
  exists j, ix1 !! nn = Some j /\ deflate_array Ac j = Ok Ac1
            /\ ((length ix <= nn
                 /\ exists Ct i, get_Ct Ac Yc alpha f_default_reg = Ok Ct
                                 /\ pcovr_pick k Ct ix = Ok i /\ ix1 = ix ++ [i])
                \/ (nn < length ix /\ ix1 = ix))
            /\ exists X_c, take_columns Ac1 ix1 = Ok X_c
                           /\ update_array Yc X_c = Ok Yc1.
Proof.
  unfold pcovr_round_on.
  assert (Hrest : forall ix',
             match res_bind (list_get ix' nn) (fun j => deflate_array Ac j) with
             | Raise e => (Ac, Yc, ix', Raise e)
             | Ok Ac1 =>
                 match res_bind (take_columns Ac1 ix')
                                (fun X_c => update_array Yc X_c) with
                 | Raise e => (Ac1, Yc, ix', Raise e)
                 | Ok Yc1 => (Ac1, Yc1, ix', Ok false)
                 end
             end = (Ac1, Yc1, ix1, Ok false) ->
             ix' = ix1
             /\ exists j, ix1 !! nn = Some j /\ deflate_array Ac j = Ok Ac1
                /\ exists X_c, take_columns Ac1 ix1 = Ok X_c
                               /\ update_array Yc X_c = Ok Yc1).
  { intros ix'. unfold list_get.
    destruct (ix' !! nn) as [j|] eqn:Ej; simpl; [|discriminate].
    destruct (deflate_array Ac j) as [Ac'|e] eqn:Ed; [|discriminate].
    destruct (take_columns Ac' ix') as [X_c|e] eqn:Et; simpl; [|discriminate].
    destruct (update_array Yc X_c) as [Yc'|e] eqn:Eu; [|discriminate].
    intros [= <- <- <-]. split; [reflexivity|]. eauto 10. }
  destruct (length ix <=? nn) eqn:E.
  - apply Nat.leb_le in E.
    destruct (get_Ct Ac Yc alpha f_default_reg) as [Ct|e0]; [|discriminate].
    destruct (pcovr_pick k Ct ix) as [i|e] eqn:Ep; simpl; [|discriminate].
    intros H. destruct (Hrest _ H) as (<- & j & Hj & Hd & Hu).
    exists j. split; [exact Hj|]. split; [exact Hd|].
    split; [left; eauto 10|exact Hu].
  - apply Nat.leb_gt in E.
    intros H. destruct (Hrest _ H) as (<- & j & Hj & Hd & Hu).
    exists j. split; [exact Hj|]. split; [exact Hd|].
    split; [right; auto|exact Hu].
Qed.

Lemma pcovr_rounds_seq alpha k n :
  forall a Ac Yc ix Ac' Yc' ix',
    a <= length ix ->
    pcovr_rounds alpha k (seq a n) Ac Yc ix = (Ac', Yc', ix', Ok false) ->
    length ix' = Nat.max (length ix) (a + n)
    /\ ncols Ac' = ncols Ac
    /\ forall p j, (a <= p /\ p < a + n) -> ix' !! p = Some j -> j < ncols Ac.
Proof.
  induction n as [|n IH]; intros a Ac Yc ix Ac' Yc' ix' Hle; simpl.
  - intros [= <- <- <-]. repeat split; try lia.
  - destruct (pcovr_round_on alpha k a Ac Yc ix) as [[[Ac1 Yc1] ix1] [[|]|e]] eqn:E1;
      try discriminate.
    intros Hrest.
    destruct (pcovr_round_on_goes_on _ _ _ _ _ _ _ _ _ E1) as (j & Hj & Hd & Hcase & _).
    destruct (deflate_array_Ok _ _ _ Hd) as (Hjlt & _ & Hc1).
    assert (Hlen1 : S a <= length ix1 /\ length ix1 = Nat.max (length ix) (S a)).
    { destruct Hcase as [(Hl & Ct & i & _ & _ & ->)|(Hl & ->)].
      - rewrite length_app. simpl. lia.
      - lia. }
    destruct (IH (S a) Ac1 Yc1 ix1 Ac' Yc' ix' (proj1 Hlen1) Hrest) as (HL & HC & HB).
    split; [lia|]. split; [congruence|].
    intros p j' Hp Hlook.
    destruct (Nat.eq_dec p a) as [->|Hne].
    + destruct (pcovr_rounds_extends alpha k (seq (S a) n) Ac1 Yc1 ix1) as [new Hnew].
      rewrite Hrest in Hnew. simpl in Hnew. subst ix'.
      rewrite lookup_app_l in Hlook by (eapply lookup_lt_Some, Hj).
      congruence.
    + rewrite <- Hc1. apply (HB p j'); [lia|exact Hlook].
Qed.

(** The round in which the covariance cannot be built ends the loop. *)
Lemma pcovr_rounds_stop alpha k n nn a y ix0 Ac Yc ix e :
  nn < n ->
  pcovr_rounds alpha k (seq 0 nn) a y ix0 = (Ac, Yc, ix, Ok false) ->
  length ix <= nn ->
  get_Ct Ac Yc alpha f_default_reg = Raise e ->
  pcovr_rounds alpha k (seq 0 n) a y ix0 = (Ac, Yc, ix, Ok true).
Proof.
  intros Hlt Hdone Hlen Hfail.
  replace n with (nn + S (n - S nn)) by lia.
  rewrite seq_app, pcovr_rounds_app, Hdone. simpl.
  unfold pcovr_round_on.
  apply Nat.leb_le in Hlen. now rewrite Hlen, Hfail.
Qed.

(** A round that returns early is a selecting round in which the
    covariance could not be built; it leaves everything as it was. *)
Lemma pcovr_round_on_stops alpha k nn Ac Yc ix Ac1 Yc1 ix1 :
  pcovr_round_on alpha k nn Ac Yc ix = (Ac1, Yc1, ix1, Ok true) ->
  length ix <= nn /\ Ac1 = Ac /\ Yc1 = Yc /\ ix1 = ix
  /\ exists e, get_Ct Ac Yc alpha f_default_reg = Raise e.
Proof.
  unfold pcovr_round_on.
  assert (Hrest : forall ix',
             match res_bind (list_get ix' nn) (fun j => deflate_array Ac j) with
             | Raise e => (Ac, Yc, ix', Raise e)
             | Ok Ac1 =>
                 match res_bind (take_columns Ac1 ix')
                                (fun X_c => update_array Yc X_c) with
                 | Raise e => (Ac1, Yc, ix', Raise e)
                 | Ok Yc1 => (Ac1, Yc1, ix', Ok false)
                 end
             end <> (Ac1, Yc1, ix1, Ok true)).
  { intros ix'.
    destruct (res_bind (list_get ix' nn) (fun j => deflate_array Ac j)) as [Ac'|e];
      [|discriminate].
    destruct (res_bind (take_columns Ac' ix') (fun X_c => update_array Yc X_c));
      discriminate. }
  destruct (length ix <=? nn) eqn:E.
  - apply Nat.leb_le in E.
    destruct (get_Ct Ac Yc alpha f_default_reg) as [Ct|e0].
    + destruct (pcovr_pick k Ct ix) as [i|e]; simpl; [|discriminate].
      intros H. now destruct (Hrest _ H).
    + intros [= <- <- <-]. eauto 10.
  - intros H. now destruct (Hrest _ H).
Qed.


End RoundFacts.

(** * The class CUR: how [compute] uses and extends its caches *)

Section CURFacts.
Context {F : Type} `{SF : Scalar F} `{NL : NumLib F}.
Implicit Types (s : store F) (self : CUR F).
Local Open Scope py_scope.

Lemma bind_inv {A B} (m : M F A) (k : A -> M F B) s s' (b : B) :
  bind m k s = (s', Ok b) ->
  exists s1 a, m s = (s1, Ok a) /\ k a s1 = (s', Ok b).
Proof.
  unfold bind. destruct (m s) as [s1 [a|e]]; [eauto|discriminate].
Qed.

Lemma lift_inv {A} (r : res A) s s' (a : A) :
  lift r s = (s', Ok a) -> s' = s /\ r = Ok a.
Proof. unfold lift. now intros [= -> ->]. Qed.

Lemma read_arr_inv l s s' (a : ndarray F) :
  read_arr l s = (s', Ok a) -> s' = s /\ s !! l = Some (Arr a).
Proof.
  unfold read_arr. destruct (s !! l) as [[a'|ix]|]; try discriminate.
  now intros [= -> ->].
Qed.

Lemma read_list_inv l s s' (ix : list nat) :
  read_list l s = (s', Ok ix) -> s' = s /\ s !! l = Some (Lst ix).
Proof.
  unfold read_list. destruct (s !! l) as [[a'|ix']|]; try discriminate.
  now intros [= -> ->].
Qed.








Lemma call_select_Some self f :
  self_select self = Some f -> call_select self = f.
Proof. intros H. unfold call_select. now rewrite H. Qed.


(** The two ways [compute] gets its indices: from [compute_idx],
    storing what it returns, or from the caches, cut to the counts
    requested. *)
Lemma resolve_idx_inv self n_c n_r s s' self' ic ir :
  resolve_idx self n_c n_r s = (s', Ok (self', (ic, ir))) ->
  (exists lc' lr',
      compute_idx self n_c n_r s = (s', Ok (lc', lr'))
      /\ self' = set_idx self (Some lc') (Some lr')
      /\ s' !! lc' = Some (Lst ic) /\ s' !! lr' = Some (Lst ir))
  \/ (s' = s /\ self' = self
      /\ exists lc lr cached_c cached_r n,
          self_idx_c self = Some lc /\ self_idx_r self = Some lr
          /\ s !! lc = Some (Lst cached_c) /\ s !! lr = Some (Lst cached_r)
          /\ n_r = Some n
          /\ n_c <= length cached_c /\ n <= length cached_r
          /\ ic = take n_c cached_c /\ ir = take n cached_r).
Proof.
  assert (Hre : forall s0,
             (ii <- compute_idx self n_c n_r ;;
              ic <- read_list (fst ii) ;;
              ir <- read_list (snd ii) ;;
              ret (set_idx self (Some (fst ii)) (Some (snd ii)), (ic, ir))) s0
             = (s', Ok (self', (ic, ir))) ->
             exists lc' lr',
               compute_idx self n_c n_r s0 = (s', Ok (lc', lr'))
               /\ self' = set_idx self (Some lc') (Some lr')
               /\ s' !! lc' = Some (Lst ic) /\ s' !! lr' = Some (Lst ir)).
  { intros s0 H.
    apply bind_inv in H. destruct H as (s1 & [lc' lr'] & Hidx & H).
    apply bind_inv in H. destruct H as (s2 & ic' & Hrc & H).
    apply read_list_inv in Hrc. destruct Hrc as [-> Hlc].
    apply bind_inv in H. destruct H as (s3 & ir' & Hrr & H).
    apply read_list_inv in Hrr. destruct Hrr as [-> Hlr].
    unfold ret in H. injection H as <- <- <- <-.
    exists lc', lr'. auto. }
  unfold resolve_idx.
  destruct (self_idx_c self) as [lc|] eqn:Ec; [|intros H; left; now apply Hre].
  destruct (negb (self_fs self) && negb (bool_decide (is_Some (self_idx_r self))));
    [intros H; left; now apply Hre|].
  intros H.
  apply bind_inv in H. destruct H as (s1 & cached_c & Hrc & H).
  apply read_list_inv in Hrc. destruct Hrc as [-> Hlc].
  apply bind_inv in H. destruct H as (s2 & short & Hshort & H).
  assert (Hs2 : s2 = s
                /\ (short = false ->
                    exists lr cached_r n,
                      self_idx_r self = Some lr /\ s !! lr = Some (Lst cached_r)
                      /\ n_r = Some n /\ n_c <= length cached_c
                      /\ n <= length cached_r)).
  { destruct (length cached_c <? n_c) eqn:Elen.
    - unfold ret in Hshort. injection Hshort as <- <-. split; [reflexivity|discriminate].
    - apply Nat.ltb_ge in Elen.
      apply bind_inv in Hshort. destruct Hshort as (s3 & cached_r & Hrr & Hshort).
      destruct (self_idx_r self) as [lr|] eqn:Er; simpl in Hrr; [|discriminate].
      apply read_list_inv in Hrr. destruct Hrr as [-> Hlr].
      apply bind_inv in Hshort. destruct Hshort as (s4 & n & Hn & Hshort).
      destruct n_r as [n'|]; simpl in Hn; [|discriminate].
      unfold ret in Hn. injection Hn as <- <-.
      unfold ret in Hshort. injection Hshort as <- Hcmp.
      split; [reflexivity|]. intros ->.
      apply Nat.ltb_ge in Hcmp.
      exists lr, cached_r, n'. auto. }
  destruct Hs2 as [-> Hdetail].
  destruct short; [left; now apply Hre|].
  destruct (Hdetail eq_refl) as (lr & cached_r & n & Er & Hlr & -> & Hc1 & Hc2).
  rewrite Er in H. simpl in H.
  rewrite (bind_Ok _ _ _ _ _ (read_list_Ok _ _ _ Hlr)) in H.
  unfold bind, ret in H. simpl in H. injection H as <- <- <- <-.
  right. split; [reflexivity|]. split; [reflexivity|].
  exists lc, lr, cached_c, cached_r, n. repeat split; auto.
Qed.

Lemma compute_inv self n_c n_r s s' self' out :
  compute self n_c n_r s = (s', Ok (self', out)) ->
  exists a ic ir,
    s !! self_A self = Some (Arr a)
    /\ resolve_idx self n_c (effective_n_r self a n_c n_r) s
       = (s', Ok (self', (ic, ir))).
Proof.
  unfold compute. intros H.
  apply bind_inv in H. destruct H as (s1 & a & Hread & H).
  apply read_arr_inv in Hread. destruct Hread as [-> HA].
  apply bind_inv in H. destruct H as (s2 & [self2 [ic ir]] & Hres & H).
  simpl in H.
  apply bind_inv in H. destruct H as (s3 & a2 & Hread2 & H).
  apply read_arr_inv in Hread2. destruct Hread2 as [-> HA2].
  apply bind_inv in H. destruct H as (s4 & A_c & Hl1 & H).
  apply lift_inv in Hl1. destruct Hl1 as [-> _].
  apply bind_inv in H. destruct H as (s5 & A_r & Hl2 & H).
  assert (s5 = s2) as ->.
  { destruct (self_symmetric self2 && negb (self_fs self2)).
    - unfold ret in Hl2. now injection Hl2 as <- _.
    - destruct (self_fs self2).
      + unfold ret in Hl2. now injection Hl2 as <- _.
      + apply lift_inv in Hl2. now destruct Hl2. }
  apply bind_inv in H. destruct H as (s6 & S & Hl3 & H).
  apply lift_inv in Hl3. destruct Hl3 as [-> _].
  unfold ret in H. injection H as <- <- _.
  exists a, ic, ir. split; [exact HA|exact Hres].
Qed.


Lemma resolve_idx_fields self n_c n_r s s' self' ii :
  resolve_idx self n_c n_r s = (s', Ok (self', ii)) ->
  self_A self' = self_A self
  /\ self_symmetric self' = self_symmetric self
  /\ self_fs self' = self_fs self.
Proof.
  destruct ii as [ic ir]. intros H.
  destruct (resolve_idx_inv _ _ _ _ _ _ _ _ H)
    as [(lc' & lr' & _ & -> & _)|(_ & -> & _)]; auto.
Qed.

(** Every triple [compute] returns has the shape of the decomposition. *)
Lemma compute_triple_inv self n_c n_r s s' self' (A_c S A_r : ndarray F) :
  compute self n_c n_r s = (s', Ok (self', (A_c, S, A_r))) ->
  exists a a' ic ir Pc Pr,
    s !! self_A self = Some (Arr a)
    /\ resolve_idx self n_c (effective_n_r self a n_c n_r) s
       = (s', Ok (self', (ic, ir)))
    /\ s' !! self_A self = Some (Arr a')
    /\ take_columns a' ic = Ok A_c
    /\ (if self_symmetric self && negb (self_fs self) then A_r = transpose A_c
        else if self_fs self then A_r = a'
             else take_rows a' ir = Ok A_r)
    /\ pinv A_c = Ok Pc /\ pinv A_r = Ok Pr
    /\ matmul Pc a' = Ok (mm Pc a')
    /\ matmul (mm Pc a') Pr = Ok S.
Proof.
  unfold compute. intros H.
  apply bind_inv in H. destruct H as (s1 & a & Hread & H).
  apply read_arr_inv in Hread. destruct Hread as [-> HA].
  apply bind_inv in H. destruct H as (s2 & [self2 [ic ir]] & Hres & H).
  destruct (resolve_idx_fields _ _ _ _ _ _ _ Hres) as (EA & Esym & Efs).
  simpl in H. rewrite EA, Esym, Efs in H.
  apply bind_inv in H. destruct H as (s3 & a' & Hread2 & H).
  apply read_arr_inv in Hread2. destruct Hread2 as [-> HA2].
  apply bind_inv in H. destruct H as (s4 & A_c' & Hl1 & H).
  apply lift_inv in Hl1. destruct Hl1 as [-> Hcols].
  apply bind_inv in H. destruct H as (s5 & A_r' & Hl2 & H).
  apply bind_inv in H. destruct H as (s6 & S' & Hl3 & H).
  apply lift_inv in Hl3. destruct Hl3 as [-> HS].
  unfold ret in H. injection H as <- <- <- <- <-.
  assert (HAr : s5 = s2
                /\ (if self_symmetric self && negb (self_fs self)
                    then A_r' = transpose A_c'
                    else if self_fs self then A_r' = a'
                         else take_rows a' ir = Ok A_r')).
  { destruct (self_symmetric self && negb (self_fs self)).
    - unfold ret in Hl2. injection Hl2 as <- <-. auto.
    - destruct (self_fs self).
      + unfold ret in Hl2. injection Hl2 as <- <-. auto.
      + apply lift_inv in Hl2. destruct Hl2 as [-> Hl2]. auto. }
  destruct HAr as [-> HAr].
  destruct (pinv A_c') as [Pc|e] eqn:EPc; simpl in HS; [|discriminate].
  unfold matmul in HS at 1.
  destruct (ncols Pc =? nrows a') eqn:Eshape; simpl in HS; [|discriminate].
  destruct (pinv A_r') as [Pr|e] eqn:EPr; simpl in HS; [|discriminate].
  exists a, a', ic, ir, Pc, Pr.
  repeat split; auto.
  unfold matmul. now rewrite Eshape.
Qed.

End CURFacts.

(** * Main results *)

Section Results.
Context {F : Type} `{SF : Scalar F} `{NL : NumLib F}.
Implicit Types (s : store F) (Ac Yc : ndarray F) (ix : list nat).





(** C4 (amended). When [sorted_eig] returns eigenpairs of the right
    shapes, [get_Ct] returns [alpha * cov + (1 - alpha) * C_lr] with
    [cov = X^T X] and [C_lr = P P^T], [P = Csqrt (Cinv (X^T Y))],
    built from the eigenpairs above the regularization floor; and for
    [alpha = 1] the result is [cov] itself as soon as
    [1 * c + (1 - 1) * l = c] holds between the entries of [cov] and
    [C_lr]. *)
Theorem get_Ct_formula (X Y : ndarray F) (alpha reg : F) (v : list F) (U : ndarray F) :
  sorted_eig (mm (transpose X) X) (Some reg) None = Ok (v, U) ->
  length v = ncols U -> nrows U = ncols X -> nrows Y = nrows X ->
  let cov := mm (transpose X) X in
  let keep := map (fun e => fltb reg e) v in
  let U_C := select_columns U (mask_positions keep) in
  let v_C := select_entries v keep in
  let Csqrt := mm (mm U_C (diag (map fsqrt v_C))) (transpose U_C) in
  let Cinv := mm (mm U_C (diag (map (fdiv f1) v_C))) (transpose U_C) in
  let P := mm Csqrt (mm Cinv (mm (transpose X) Y)) in
  let C_lr := mm P (transpose P) in
  (get_Ct X Y alpha reg
   = Ok (tabulate (ncols X) (ncols X)
                  (fun i j => fadd (fmul alpha (get cov i j))
                                   (fmul (fsub f1 alpha) (get C_lr i j)))))
  /\ ((forall i j, i < ncols X -> j < ncols X ->
                   fadd (fmul f1 (get cov i j)) (fmul (fsub f1 f1) (get C_lr i j))
                   = get cov i j) ->
      get_Ct X Y f1 reg = Ok cov).
Proof.
  intros Heig Hv HU HY cov keep U_C v_C Csqrt Cinv P C_lr.
  assert (Hgen : forall al,
             get_Ct X Y al reg
             = Ok (tabulate (ncols X) (ncols X)
                            (fun i j => fadd (fmul al (get cov i j))
                                             (fmul (fsub f1 al) (get C_lr i j))))).
  { intros al. unfold get_Ct.
    rewrite (matmul_Ok (transpose X) X) by reflexivity. simpl res_bind.
    rewrite Heig. simpl res_bind. simpl fst. simpl snd. fold cov.
    fold keep.
    rewrite (mask_columns_Ok U keep) by (unfold keep; now rewrite length_map).
    simpl res_bind.
    rewrite (mask_vector_Ok v keep) by (unfold keep; now rewrite length_map).
    simpl res_bind. fold U_C v_C.
    assert (Hk : ncols U_C = length v_C)
      by (unfold U_C, v_C, select_entries; simpl; now rewrite length_map).
    rewrite (matmul_Ok U_C (diag (map fsqrt v_C)))
      by (simpl; now rewrite length_map).
    simpl res_bind.
    rewrite (matmul_Ok (mm U_C (diag (map fsqrt v_C))) (transpose U_C))
      by (simpl; now rewrite length_map).
    simpl res_bind. fold Csqrt.
    rewrite (matmul_Ok U_C (diag (map (fdiv f1) v_C)))
      by (simpl; now rewrite length_map).
    simpl res_bind.
    rewrite (matmul_Ok (mm U_C (diag (map (fdiv f1) v_C))) (transpose U_C))
      by (simpl; now rewrite length_map).
    simpl res_bind. fold Cinv.
    rewrite (matmul_Ok (transpose X) Y) by (simpl; congruence).
    simpl res_bind.
    rewrite (matmul_Ok Cinv (mm (transpose X) Y)) by (simpl; congruence).
    simpl res_bind.
    rewrite (matmul_Ok Csqrt (mm Cinv (mm (transpose X) Y))) by reflexivity.
    simpl res_bind. fold P.
    rewrite (matmul_Ok P (transpose P)) by reflexivity.
    simpl res_bind. fold C_lr.
    rewrite zip_arrays_Ok by (simpl; congruence).
    f_equal. simpl. apply tabulate_ext. intros i j Hi Hj.
    unfold scale, map_array.
    rewrite !get_tabulate; simpl; auto; congruence. }
  split; [apply Hgen|].
  intros Hexact. rewrite Hgen. f_equal.
  etransitivity;
    [apply tabulate_ext; intros i j Hi Hj; apply (Hexact i j Hi Hj)|].
  unfold cov, mm. simpl.
  apply tabulate_ext. intros i j Hi Hj. now rewrite get_tabulate.
Qed.

(** C9. [update] replaces the working [Y] with [Y - H Y], where
    [H = X_c pinv(X_c^T X_c) X_c^T]. *)
Theorem update_replaces_with_residual s Y_copy (Y X_c P : ndarray F) :
  s !! Y_copy = Some (Arr Y) ->
  pinv (mm (transpose X_c) X_c) = Ok P ->
  nrows P = ncols X_c -> ncols P = ncols X_c -> nrows Y = nrows X_c ->
  let H := mm (mm X_c P) (transpose X_c) in
  update Y_copy X_c s
  = (<[Y_copy := Arr (tabulate (nrows Y) (ncols Y)
                               (fun i j => fsub (get Y i j) (get (mm H Y) i j)))]> s,
     Ok tt).
Proof.
  intros HY HP Hr Hc Hrows H.
  rewrite (update_run s Y_copy Y X_c HY).
  unfold update_array.
  rewrite (matmul_Ok (transpose X_c) X_c) by reflexivity. simpl res_bind.
  rewrite HP. simpl res_bind.
  rewrite (matmul_Ok X_c P) by congruence. simpl res_bind.
  rewrite (matmul_Ok (mm X_c P) (transpose X_c)) by (simpl; congruence).
  simpl res_bind. fold H.
  rewrite (matmul_Ok H Y) by (simpl; congruence). simpl res_bind.
  rewrite zip_arrays_Ok by (simpl; congruence).
  reflexivity.
Qed.



(** Whatever the library answers, a call of [pcovr_select] that stops
    on a covariance failure and a call of [svd_select] for the same
    count cannot return the same list. *)
Lemma early_stop_differs_from_svd s s' A a Y y n alpha k k' nn Ac Yc ix e :
  s !! A = Some (Arr a) -> s !! Y = Some (Arr y) -> s' !! A = Some (Arr a) ->
  nn < n ->
  pcovr_rounds alpha k (seq 0 nn) a y [] = (Ac, Yc, ix, Ok false) ->
  get_Ct Ac Yc alpha f_default_reg = Raise e ->
  outcome (pcovr_select A n Y alpha k None s)
  <> outcome (svd_select A n k' None s').
Proof.
  intros HA HY HA' Hlt Hdone Hfail.
  destruct (pcovr_rounds_seq alpha k nn 0 a y [] Ac Yc ix (Nat.le_0_l _) Hdone)
    as (HL & _).
  simpl in HL.
  pose proof (pcovr_select_run s A a Y y n alpha k None [] HA HY eq_refl) as E1.
  pose proof (svd_select_run s' A a n k' None [] HA' eq_refl) as E2.
  rewrite (outcome_of_effect _ _ _ _ _ E1), (outcome_of_effect _ _ _ _ _ E2).
  rewrite (pcovr_rounds_stop alpha k n nn a y [] Ac Yc ix e Hlt Hdone
                             ltac:(lia) Hfail).
  simpl.
  destruct (svd_rounds k' (seq 0 n) a []) as [[Ac2 ix2] [[]|e2]] eqn:R;
    simpl; [|discriminate].
  destruct (svd_rounds_seq k' n 0 a [] Ac2 ix2 (Nat.le_0_l _) R) as (HL2 & _).
  simpl in HL2. intros [= ->]. lia.
Qed.

(** C6. With the indices [idx_c], [idx_r] that [compute] resolves,
    it returns [(A_c, S, A_r)] where [A_c] is [A] restricted to the
    columns [idx_c]; [A_r] is [A_c] transposed in symmetric mode,
    [A] itself in feature-select mode, and [A] restricted to the rows
    [idx_r] otherwise; and [S = pinv(A_c) A pinv(A_r)]. *)
Theorem compute_returns_triple
        (self : CUR F) n_c n_r s a s1 self1 idx_c idx_r (Pc Pr : ndarray F) :
  s !! self_A self = Some (Arr a) ->
  resolve_idx self n_c (effective_n_r self a n_c n_r) s
  = (s1, Ok (self1, (idx_c, idx_r))) ->
  s1 !! self_A self = Some (Arr a) ->
  Forall (fun j => j < ncols a) idx_c ->
  (self_symmetric self = false -> self_fs self = false ->
   Forall (fun i => i < nrows a) idx_r) ->
  let A_c := select_columns a idx_c in
  let A_r := if self_symmetric self && negb (self_fs self) then transpose A_c
             else if self_fs self then a
                  else select_rows a idx_r in
  pinv A_c = Ok Pc -> pinv A_r = Ok Pr ->
  ncols Pc = nrows a -> ncols a = nrows Pr ->
  compute self n_c n_r s = (s1, Ok (self1, (A_c, mm (mm Pc a) Pr, A_r))).
Proof.
  intros HA Hres HA1 Hcols Hrows A_c A_r HPc HPr Hs1 Hs2.
  destruct (resolve_idx_fields _ _ _ _ _ _ _ Hres) as (EA & Esym & Efs).
  unfold compute.
  rewrite (bind_Ok _ _ _ _ _ (read_arr_Ok _ _ _ HA)).
  fold (effective_n_r self a n_c n_r).
  rewrite (bind_Ok _ _ _ _ _ Hres). simpl fst. simpl snd.
  rewrite EA, Esym, Efs.
  rewrite (bind_Ok _ _ _ _ _ (read_arr_Ok _ _ _ HA1)).
  rewrite (bind_Ok _ _ s1 s1 A_c)
    by (unfold lift; now rewrite (take_columns_Ok a idx_c Hcols)).
  rewrite (bind_Ok _ _ s1 s1 A_r).
  2:{ unfold A_r.
      destruct (self_symmetric self) eqn:E1; destruct (self_fs self) eqn:E2;
        simpl; try reflexivity.
      unfold lift. now rewrite (take_rows_Ok a idx_r (Hrows eq_refl eq_refl)). }
  rewrite (bind_Ok _ _ s1 s1 (mm (mm Pc a) Pr)); [reflexivity|].
  unfold lift. rewrite HPc. simpl.
  rewrite (matmul_Ok Pc a Hs1). simpl. rewrite HPr. simpl.
  now rewrite (matmul_Ok (mm Pc a) Pr) by (simpl; exact Hs2).
Qed.



End Results.

(** * The results on concrete float64 arrays *)

Section Examples.
Local Open Scope float_scope.

(** C1. A square matrix with an entry of [|A - A^T|] equal to 1 is
    flagged symmetric at the default tolerance 1e-4: the comparison
    with the tolerance is applied to the truth value of [np.all], not
    to the entries. *)
Theorem symmetric_flag_ignores_entries :
  symmetric_flag A_asym f_default_tol = Ok true
  /\ is_square A_asym = true
  /\ fabs (fsub (get A_asym 0 1) (get A_asym 1 0)) = 1
  /\ fltb 1 f_default_tol = false
  /\ within_tolerance A_asym f_default_tol = false.
Proof. repeat split; reflexivity. Qed.

Example init_cur_fresh :
  CUR_init 0%nat None false (ByName "svd") f_default_tol no_params store_full
  = (store_full, Ok cur_fresh).
Proof. reflexivity. Qed.

Example init_asym_is_symmetric :
  exists self,
    CUR_init 0%nat None false (ByName "svd") f_default_tol no_params
             (store_of A_asym Y_ones)
    = (store_of A_asym Y_ones, Ok self)
    /\ self_symmetric self = true.
Proof. exists cur_fresh. split; reflexivity. Qed.


Example pcovr_resumed_example :
  outcome (pcovr_select 0%nat 2%nat 1%nat 1 1%nat (Some 5%nat) store_one_pcovr)
  = Ok [0%nat; 1%nat]
  /\ outcome (pcovr_select 0%nat 2%nat 1%nat 1 1%nat None store_full)
     = Ok [0%nat; 1%nat].
Proof. split; reflexivity. Qed.


Example svd_select_overdrawn_example :
  outcome (svd_select 0%nat 3%nat 1%nat None store_full) = Ok [0%nat; 1%nat; 0%nat].
Proof. reflexivity. Qed.

Lemma get_Ct_differs_from_documented :
  get_Ct A_full Y_ones 0 f_default_reg = Ok (mat 2 2 [[1; 1]; [1; 1]])
  /\ get_Ct_as_documented A_full Y_ones 0 f_default_reg
     = Ok (mat 2 2 [[0.5; 1]; [0.5; 1]])
  /\ get_Ct A_full Y_ones 0 f_default_reg
     <> get_Ct_as_documented A_full Y_ones 0 f_default_reg.
Proof.
  split; [reflexivity|]. split; [reflexivity|].
  intros H. vm_compute in H. discriminate H.
Qed.

(** In float64 the blend with [alpha = 1] is not always the plain
    covariance: an overflowing [C_lr] turns [0 * inf] into a NaN. *)
Example get_Ct_alpha_one_overflow :
  get_Ct A_full Y_huge 1 f_default_reg = Ok (mat 2 2 [[nan; 0]; [0; 1]])
  /\ mm (transpose A_full) A_full = mat 2 2 [[4; 0]; [0; 1]].
Proof. split; reflexivity. Qed.

Lemma get_Ct_formula_witness :
  get_Ct A_full Y_ones 1 f_default_reg = Ok (mm (transpose A_full) A_full).
Proof.
  refine (proj2 (get_Ct_formula
                   A_full Y_ones 1 f_default_reg
                   [4; 1] (mat 2 2 [[1; 0]; [0; 1]])
                   eq_refl eq_refl eq_refl eq_refl) _).
  intros i j Hi Hj.
  destruct i as [|[|i]]; [| |simpl in Hi; lia];
    (destruct j as [|[|j]]; [| |simpl in Hj; lia]); reflexivity.
Defined.


Lemma compute_returns_triple_witness :
  compute cur_fresh 1%nat None store_full
  = (store_one,
     Ok (cur_one, (mat 2 1 [[2]; [0]], mat 1 1 [[0.5]], mat 1 2 [[2; 0]]))).
Proof.
  rewrite (compute_returns_triple
             cur_fresh 1%nat None store_full A_full store_one cur_one
             [0%nat] [0%nat] (mat 1 2 [[0.5; 0]]) (mat 2 1 [[0.5]; [0]])).
  - reflexivity.
  - reflexivity.
  - reflexivity.
  - reflexivity.
  - repeat constructor.
  - discriminate.
  - reflexivity.
  - reflexivity.
  - reflexivity.
  - reflexivity.
Defined.



Lemma update_replaces_witness :
  update 1%nat (mat 2 1 [[2]; [0]]) store_full
  = (<[1%nat := Arr (mat 2 1 [[0]; [1]])]> store_full, Ok tt).
Proof.
  rewrite (update_replaces_with_residual
             store_full 1%nat Y_ones (mat 2 1 [[2]; [0]]) (mat 1 1 [[0.25]]));
    reflexivity.
Defined.


Example resumed_calls_append_in_place :
  svd_select 0%nat 2%nat 1%nat (Some 2%nat) store_resume
  = ([Arr A_full; Arr Y_ones; Lst [0%nat; 1%nat];
      Arr (mat 2 2 [[0; 0]; [0; 0]]); Lst [0%nat; 1%nat]], Ok 4%nat).
Proof. reflexivity. Qed.

(** The relative error of [cur_fresh] for one and for two columns. *)
Example loss_on_A_full :
  (exists self, loss cur_fresh 1%nat None store_full
                = (store_one, Ok (self, 0x1.c9f25c5bfedd9p-2)))
  /\ (exists self, loss cur_one 2%nat None store_one = (store_two, Ok (self, 0))).
Proof. split; eexists; vm_compute; reflexivity. Qed.

End Examples.

(** * The deflation, entry by entry *)

Section DeflationFacts.
Context {F : Type} `{SF : Scalar F}.
Implicit Types (M : ndarray F) (v : list F).

Lemma nth_map_lt {A B} (g : A -> B) (l : list A) r dB dA :
  r < length l -> nth r (map g l) dB = g (nth r l dA).
Proof.
  revert r. induction l as [|x l IH]; intros [|r]; simpl; try lia; auto.
  intros H. apply IH. lia.
Qed.

Lemma nth_map_combine {A B C} (g : A * B -> C) (l : list A) (l' : list B) r dA dB dC :
  r < length l -> r < length l' ->
  nth r (map g (combine l l')) dC = g (nth r l dA, nth r l' dB).
Proof.
  revert l' r. induction l as [|x l IH]; intros [|y l'] [|r]; simpl; try lia; auto.
  intros H1 H2. apply IH; lia.
Qed.

Lemma length_column M j : length (column M j) = nrows M.
Proof. unfold column. now rewrite length_map, length_seq. Qed.

Lemma nth_column M j r : r < nrows M -> nth r (column M j) f0 = get M r j.
Proof.
  intros Hr. unfold column.
  rewrite (nth_map_lt _ _ _ _ 0) by (rewrite length_seq; lia).
  now rewrite seq_nth by lia.
Qed.

Lemma length_unit_column M j : length (unit_column M j) = nrows M.
Proof. unfold unit_column. now rewrite length_map, length_column. Qed.

Lemma column_ext M M' i :
  nrows M' = nrows M -> (forall r, r < nrows M -> get M' r i = get M r i) ->
  column M' i = column M i.
Proof.
  intros Hn H. unfold column. rewrite Hn. apply map_ext_in.
  intros r Hr. apply in_seq in Hr. apply H. lia.
Qed.

(** The passes of the column loop do not interfere: a pass rewrites
    its own column from that column and [v] alone. *)
Lemma deflate_fold_get v (l : list nat) :
  forall M,
    length v = nrows M -> List.NoDup l -> List.Forall (fun i => i < ncols M) l ->
    let M' := fold_left (deflate_step v) l M in
    nrows M' = nrows M /\ ncols M' = ncols M
    /\ forall r i, r < nrows M -> i < ncols M ->
         get M' r i = if existsb (Nat.eqb i) l
                      then fsub (get M r i) (fmul (nth r v f0) (dot v (column M i)))
                      else get M r i.
Proof.
  induction l as [|x l IH]; intros M Hv Hnd Hall; simpl.
  - auto.
  - inversion Hnd as [|? ? Hx Hnd']; subst. inversion Hall as [|? ? Hxc Hall']; subst.
    set (M1 := deflate_step v M x).
    assert (Hr1 : nrows M1 = nrows M) by reflexivity.
    assert (Hc1 : ncols M1 = ncols M) by reflexivity.
    destruct (IH M1) as (Hr & Hc & Hget); auto; try congruence.
    split; [congruence|]. split; [congruence|].
    intros r i Hri Hic. rewrite Hget by congruence.
    assert (Hother : forall r' i', r' < nrows M -> i' < ncols M -> i' <> x ->
                                   get M1 r' i' = get M r' i').
    { intros r' i' Hr' Hi' Hne. unfold M1, deflate_step, set_column.
      rewrite get_tabulate by assumption.
      now replace (i' =? x) with false by (symmetry; apply Nat.eqb_neq; exact Hne). }
    destruct (Nat.eqb_spec i x) as [->|Hne]; simpl.
    + replace (existsb (Nat.eqb x) l) with false.
      * unfold M1, deflate_step, set_column. rewrite get_tabulate by assumption.
        rewrite Nat.eqb_refl.
        rewrite (nth_map_combine _ _ _ _ f0 f0) by (rewrite ?length_column; lia).
        simpl. now rewrite nth_column.
      * symmetry. apply not_true_is_false. intros Hex.
        apply existsb_exists in Hex as (z & Hz & Heq). apply Nat.eqb_eq in Heq.
        subst. contradiction.
    + rewrite (Hother r i) by assumption.
      rewrite (column_ext M M1 i); [reflexivity|exact Hr1|].
      intros r' Hr'. apply Hother; assumption.
Qed.

Lemma deflate_columns_get v M r i :
  length v = nrows M -> r < nrows M -> i < ncols M ->
  get (deflate_columns v M) r i
  = fsub (get M r i) (fmul (nth r v f0) (dot v (column M i))).
Proof.
  intros Hv Hr Hi.
  destruct (deflate_fold_get v (seq 0 (ncols M)) M Hv) as (_ & _ & Hget).
  - apply seq_NoDup.
  - apply List.Forall_forall. intros x Hx. apply in_seq in Hx. lia.
  - unfold deflate_columns. unfold deflate_step in Hget.
    rewrite Hget by assumption.
    replace (existsb (Nat.eqb i) (seq 0 (ncols M))) with true; [reflexivity|].
    symmetry. apply existsb_exists. exists i. split; [apply in_seq; lia|apply Nat.eqb_refl].
Qed.

(** X12. The deflation of [svd_select] and [pcovr_select] by column
    [j] keeps the shape of the working copy and replaces every entry
    [Acopy[r, i]] by [Acopy[r, i] - v[r] * dot(v, Acopy[:, i])], with
    [v] the column [j] divided by its norm and the right-hand side read
    in the working copy as it was before the loop: although the loop
    over the columns updates the copy in place, no pass sees the result
    of another. *)
Theorem deflation_is_rank_one_update (Ac Ac' : ndarray F) j :
  deflate_array Ac j = Ok Ac' ->
  let v := unit_column Ac j in
  nrows Ac' = nrows Ac /\ ncols Ac' = ncols Ac
  /\ forall r i, r < nrows Ac -> i < ncols Ac ->
       get Ac' r i = fsub (get Ac r i) (fmul (nth r v f0) (dot v (column Ac i))).
Proof.
  intros H v. pose proof (deflate_array_Ok _ _ _ H) as (Hj & Hr & Hc).
  split; [exact Hr|]. split; [exact Hc|].
  unfold deflate_array in H. apply Nat.ltb_lt in Hj. rewrite Hj in H.
  injection H as <-. intros r i Hri Hic.
  apply deflate_columns_get; auto. apply length_unit_column.
Qed.

End DeflationFacts.
(** * More on the two selections *)

Section SelectionFacts.
Context {F : Type} `{SF : Scalar F} `{NL : NumLib F}.
Implicit Types (s : store F).
Local Open Scope py_scope.
Local Open Scope res_scope.

(** What the caller of [svd_select] holds when it returns. *)
Lemma svd_select_returns s A a n k idxs ix0 s' r :
  s !! A = Some (Arr a) -> resume_list s idxs ix0 ->
  svd_select A n k idxs s = (s', Ok r) ->
  exists ix,
    s' !! r = Some (Lst ix)
    /\ length ix = Nat.max (length ix0) n
    /\ (forall p j, p < n -> ix !! p = Some j -> j < ncols a)
    /\ length s <= r
    /\ (forall l o, s !! l = Some o -> idxs <> Some l -> s' !! l = Some o)
    /\ (forall li, idxs = Some li -> s' !! li = Some (Lst ix)).
Proof.
  intros HA Hres Hrun.
  pose proof (svd_select_run s A a n k idxs ix0 HA Hres) as (_ & Hkeep & Hli & Hr).
  rewrite Hrun in Hkeep, Hli, Hr. simpl in Hkeep, Hli, Hr.
  destruct (svd_rounds k (seq 0 n) a ix0) as [[Ac' ix'] [[]|e]] eqn:Hrounds;
    simpl in Hr; [|discriminate].
  destruct Hr as (lr & [= <-] & Hfresh & Hlr).
  destruct (svd_rounds_seq k n 0 a ix0 Ac' ix' ltac:(lia) Hrounds) as (Hlen & _ & Hb).
  exists ix'. repeat split; auto.
  intros p j Hp Hj. apply (Hb p j); [lia|exact Hj].
Qed.

(** X1. Every list [svd_select] returns holds max(len(idxs), n)
    indices, and each of the first n is a column of [A]: an index out
    of range, from the SVD routine or from the resume list, ends the
    call with an exception instead. *)
Theorem svd_select_indices_in_range s A a n k idxs ix0 s' r :
  s !! A = Some (Arr a) -> resume_list s idxs ix0 ->
  svd_select A n k idxs s = (s', Ok r) ->
  exists ix,
    s' !! r = Some (Lst ix)
    /\ length ix = Nat.max (length ix0) n
    /\ forall p j, p < n -> ix !! p = Some j -> j < ncols a.
Proof.
  intros HA Hres Hrun.
  destruct (svd_select_returns _ _ _ _ _ _ _ _ _ HA Hres Hrun)
    as (ix & Hr & Hlen & Hb & _).
  exists ix. auto.
Qed.

Lemma pcovr_rounds_in_range alpha k n :
  forall a Ac Yc ix Ac' Yc' ix' b,
    a <= length ix ->
    pcovr_rounds alpha k (seq a n) Ac Yc ix = (Ac', Yc', ix', Ok b) ->
    length ix' <= Nat.max (length ix) (a + n)
    /\ forall p j, (a <= p /\ p < a + n) -> ix' !! p = Some j -> j < ncols Ac.
Proof.
  induction n as [|n IH]; intros a Ac Yc ix Ac' Yc' ix' b Hlen H; simpl in H.
  - injection H as <- <- <- <-. split; [lia|]. intros p j Hp. lia.
  - destruct (pcovr_round_on alpha k a Ac Yc ix) as [[[Ac1 Yc1] ix1] [[|]|e]] eqn:Hr.
    + injection H as <- <- <- <-.
      apply pcovr_round_on_stops in Hr as (Hle & _ & _ & -> & _).
      split; [lia|]. intros p j Hp Hj. apply lookup_lt_Some in Hj. lia.
    + destruct (pcovr_round_on_goes_on _ _ _ _ _ _ _ _ _ Hr)
        as (j0 & Hj0 & Hd & Hix & _).
      apply deflate_array_Ok in Hd as (Hj0lt & _ & Hc).
      assert (Hl1 : S a <= length ix1) by (apply lookup_lt_Some in Hj0; lia).
      assert (Hlen1 : length ix1 <= Nat.max (length ix) (S a)).
      { destruct Hix as [(Hle & Ct & i & _ & _ & ->) | (Hlt & ->)];
          [rewrite length_app; simpl|]; lia. }
      destruct (IH _ _ _ _ _ _ _ _ Hl1 H) as (Hlen' & Hb).
      split; [lia|]. intros p j Hp Hj.
      destruct (Nat.eq_dec p a) as [->|Hne].
      * destruct (pcovr_rounds_extends alpha k (seq (S a) n) Ac1 Yc1 ix1) as [new Hnew].
        rewrite H in Hnew. simpl in Hnew. subst ix'.
        rewrite lookup_app_l in Hj by lia. congruence.
      * rewrite <- Hc. apply (Hb p j); [lia|exact Hj].
    + discriminate.
Qed.

(** X2. Every list [pcovr_select] returns, at the end of the loop or
    by the early return, holds at most max(len(idxs), n) indices, and
    each of its first n entries is a column of [A]. *)
Theorem pcovr_select_indices_in_range s A a Y y n alpha k idxs ix0 s' r :
  s !! A = Some (Arr a) -> s !! Y = Some (Arr y) -> resume_list s idxs ix0 ->
  pcovr_select A n Y alpha k idxs s = (s', Ok r) ->
  exists ix,
    s' !! r = Some (Lst ix)
    /\ length ix <= Nat.max (length ix0) n
    /\ forall p j, p < n -> ix !! p = Some j -> j < ncols a.
Proof.
  intros HA HY Hres Hrun.
  pose proof (pcovr_select_run s A a Y y n alpha k idxs ix0 HA HY Hres) as (_ & _ & _ & Hr).
  rewrite Hrun in Hr. simpl in Hr.
  destruct (pcovr_rounds alpha k (seq 0 n) a y ix0) as [[[Ac' Yc'] ix'] [b|e]] eqn:Hrounds;
    simpl in Hr; [|discriminate].
  destruct Hr as (lr & [= <-] & _ & Hlr).
  destruct (pcovr_rounds_in_range alpha k n 0 a y ix0 Ac' Yc' ix' b ltac:(lia) Hrounds)
    as (Hlen & Hb).
  exists ix'. split; [exact Hlr|]. split; [exact Hlen|].
  intros p j Hp Hj. apply (Hb p j); [lia|exact Hj].
Qed.

(** Rounds below the length of the resume list only replay it. *)
Lemma svd_rounds_replay_only k m :
  forall a Ac ix,
    a + m <= length ix ->
    exists Ac',
      svd_rounds k (seq a m) Ac ix
      = (Ac', ix, if forallb (fun j => j <? ncols Ac) (take m (drop a ix))
                  then Ok tt else Raise IndexError)
      /\ ncols Ac' = ncols Ac.
Proof.
  induction m as [|m IH]; intros a Ac ix Hlen; simpl.
  - exists Ac. auto.
  - destruct (lookup_lt_is_Some_2 ix a ltac:(lia)) as [j Hj].
    rewrite (drop_S _ _ _ Hj). simpl.
    unfold svd_round_on.
    replace (length ix <=? a) with false by (symmetry; apply Nat.leb_gt; lia).
    unfold list_get. rewrite Hj. simpl. unfold deflate_array.
    destruct (j <? ncols Ac) eqn:Hjc; simpl.
    + destruct (IH (S a) (deflate_columns (unit_column Ac j) Ac) ix ltac:(lia))
        as (Ac' & Hrun & Hc).
      destruct (deflate_columns_shape (unit_column Ac j) Ac) as [_ Hc1].
      rewrite Hc1 in Hrun, Hc. exists Ac'. auto.
    + exists Ac. auto.
Qed.

(** X3. With a resume list of at least n indices [svd_select] selects
    nothing, whatever the SVD routine would do: it returns a copy of the
    whole list (not of its first n entries) when the first n are columns
    of [A], and raises IndexError otherwise. An index out of range among
    the first n of a shorter list raises IndexError as well. The
    caller's list is left as it was in both cases. *)
Theorem svd_select_long_resume_list s A a n k li ix0 :
  s !! A = Some (Arr a) -> s !! li = Some (Lst ix0) ->
  n <= length ix0 \/ forallb (fun j => j <? ncols a) (take n ix0) = false ->
  outcome (svd_select A n k (Some li) s)
  = (if forallb (fun j => j <? ncols a) (take n ix0) then Ok ix0 else Raise IndexError)
  /\ fst (svd_select A n k (Some li) s) !! li = Some (Lst ix0).
Proof.
  intros HA Hli Hn.
  pose proof (svd_select_run s A a n k (Some li) ix0 HA Hli) as Heff.
  set (m := Nat.min n (length ix0)).
  destruct (svd_rounds_replay_only k m 0 a ix0 ltac:(lia)) as (Ac' & Hrun & _).
  rewrite drop_0 in Hrun.
  assert (Htake : take m ix0 = take n ix0).
  { destruct (Nat.le_gt_cases n (length ix0)).
    - unfold m. now rewrite Nat.min_l.
    - unfold m. rewrite Nat.min_r by lia. now rewrite !take_ge by lia. }
  rewrite Htake in Hrun.
  assert (Hall : svd_rounds k (seq 0 n) a ix0
                 = (Ac', ix0, if forallb (fun j => j <? ncols a) (take n ix0)
                              then Ok tt else Raise IndexError)).
  { destruct Hn as [Hn|Hn].
    - unfold m in Hrun. now rewrite Nat.min_l in Hrun.
    - replace n with (m + (n - m)) at 1 by lia.
      rewrite seq_app, svd_rounds_app, Hrun, Hn. reflexivity. }
  rewrite Hall in Heff. simpl in Heff.
  split.
  - rewrite (outcome_of_effect _ _ _ _ _ Heff).
    now destruct (forallb _ _).
  - destruct Heff as (_ & _ & Hl & _). now apply Hl.
Qed.

Lemma NoDup_append_new (ix : list nat) i : NoDup ix -> ~ In i ix -> NoDup (ix ++ [i]).
Proof.
  intros Hnd Hi. apply NoDup_app. split; [exact Hnd|]. split.
  - intros x Hx Hx'. apply list_elem_of_singleton in Hx'. subst.
    apply Hi. now apply list_elem_of_In.
  - apply NoDup_singleton.
Qed.

Lemma svd_rounds_distinct k rounds :
  forall Ac ix Ac' ix',
    NoDup ix -> svd_winners_nonzero k rounds Ac ix ->
    svd_rounds k rounds Ac ix = (Ac', ix', Ok tt) -> NoDup ix'.
Proof.
  induction rounds as [|nn rest IH]; intros Ac ix Ac' ix' Hnd Hw H; simpl in H, Hw.
  - now injection H as <- <-.
  - destruct (svd_round_on k nn Ac ix) as [[Ac1 ix1] [[]|e]] eqn:Hr; [|discriminate].
    destruct Hw as [Hwin Hrest].
    apply (IH Ac1 ix1 Ac' ix'); [|exact Hrest|exact H].
    apply svd_round_on_Ok in Hr
      as (j & _ & _ & [(Hle & i & Hpick & ->) | (_ & ->)]); [|exact Hnd].
    apply NoDup_append_new; [exact Hnd|].
    unfold svd_pick in Hpick.
    destruct (svds Ac k) as [usv|e] eqn:Husv; [|discriminate]. simpl in Hpick.
    destruct (zero_at (leverage (snd usv) k) ix) as [pi|e] eqn:Hpi; [|discriminate].
    simpl in Hpick.
    apply (winner_is_new _ _ _ _ Hpi Hpick). now apply (Hwin Hle usv).
Qed.

Lemma pcovr_rounds_distinct alpha k rounds :
  forall Ac Yc ix Ac' Yc' ix' b,
    NoDup ix -> pcovr_winners_nonzero alpha k rounds Ac Yc ix ->
    pcovr_rounds alpha k rounds Ac Yc ix = (Ac', Yc', ix', Ok b) -> NoDup ix'.
Proof.
  induction rounds as [|nn rest IH]; intros Ac Yc ix Ac' Yc' ix' b Hnd Hw H;
    simpl in H, Hw.
  - now injection H as <- <- <- <-.
  - destruct (pcovr_round_on alpha k nn Ac Yc ix) as [[[Ac1 Yc1] ix1] [[|]|e]] eqn:Hr;
      [| |discriminate].
    + injection H as <- <- <- <-.
      now apply pcovr_round_on_stops in Hr as (_ & _ & _ & -> & _).
    + destruct Hw as [Hwin Hrest].
      apply (IH Ac1 Yc1 ix1 Ac' Yc' ix' b); [|exact Hrest|exact H].
      apply pcovr_round_on_goes_on in Hr
        as (j & _ & _ & [(Hle & Ct & i & HCt & Hpick & ->) | (_ & ->)] & _); [|exact Hnd].
      apply NoDup_append_new; [exact Hnd|].
      unfold pcovr_pick in Hpick.
      destruct (sorted_eig Ct None (Some k)) as [eig|e] eqn:Heig; [|discriminate].
      simpl in Hpick.
      destruct (zero_at (row_scores (snd eig) k) ix) as [pi|e] eqn:Hpi; [|discriminate].
      simpl in Hpick.
      apply (winner_is_new _ _ _ _ Hpi Hpick). now apply (Hwin Hle Ct eig).
Qed.

(** X4. The guard [pi[idxs] = 0] of [svd_select] does its work as long
    as a column with a non-zero score is left: if the resume list has
    no duplicate and the score of the column picked is not 0 in every
    round that selects, the list returned has no duplicate. *)
Theorem svd_select_distinct s A a n k idxs ix0 s' r :
  s !! A = Some (Arr a) -> resume_list s idxs ix0 -> NoDup ix0 ->
  svd_winners_nonzero k (seq 0 n) a ix0 ->
  svd_select A n k idxs s = (s', Ok r) ->
  exists ix, s' !! r = Some (Lst ix) /\ NoDup ix.
Proof.
  intros HA Hres Hnd Hw Hrun.
  pose proof (svd_select_run s A a n k idxs ix0 HA Hres) as (_ & _ & _ & Hr).
  rewrite Hrun in Hr. simpl in Hr.
  destruct (svd_rounds k (seq 0 n) a ix0) as [[Ac' ix'] [[]|e]] eqn:Hrounds;
    simpl in Hr; [|discriminate].
  destruct Hr as (lr & [= <-] & _ & Hlr).
  exists ix'. split; [exact Hlr|]. eapply svd_rounds_distinct; eauto.
Qed.

(** X5. The same for [pcovr_select], early return included: if the
    resume list has no duplicate and the score of the column picked is
    not 0 in every round that selects, the list returned has no
    duplicate. *)
Theorem pcovr_select_distinct s A a Y y n alpha k idxs ix0 s' r :
  s !! A = Some (Arr a) -> s !! Y = Some (Arr y) -> resume_list s idxs ix0 ->
  NoDup ix0 ->
  pcovr_winners_nonzero alpha k (seq 0 n) a y ix0 ->
  pcovr_select A n Y alpha k idxs s = (s', Ok r) ->
  exists ix, s' !! r = Some (Lst ix) /\ NoDup ix.
Proof.
  intros HA HY Hres Hnd Hw Hrun.
  pose proof (pcovr_select_run s A a Y y n alpha k idxs ix0 HA HY Hres) as (_ & _ & _ & Hr).
  rewrite Hrun in Hr. simpl in Hr.
  destruct (pcovr_rounds alpha k (seq 0 n) a y ix0) as [[[Ac' Yc'] ix'] [b|e]] eqn:Hrounds;
    simpl in Hr; [|discriminate].
  destruct Hr as (lr & [= <-] & _ & Hlr).
  exists ix'. split; [exact Hlr|]. eapply pcovr_rounds_distinct; eauto.
Qed.

(** X6. [svd_select] has no guard: when the SVD routine (or the
    scoring of its result) raises in round nn, after nn completed
    rounds, the call raises the same exception, and a resume list given
    by the caller is left holding the indices gathered so far. *)
Theorem svd_select_pick_failure s A a n k idxs ix0 nn Ac ix e :
  s !! A = Some (Arr a) -> resume_list s idxs ix0 ->
  nn < n ->
  svd_rounds k (seq 0 nn) a ix0 = (Ac, ix, Ok tt) ->
  length ix <= nn ->
  svd_pick k Ac ix = Raise e ->
  snd (svd_select A n k idxs s) = Raise e
  /\ forall li, idxs = Some li ->
                fst (svd_select A n k idxs s) !! li = Some (Lst ix).
Proof.
  intros HA Hres Hnn Hrounds Hlen Hpick.
  pose proof (svd_select_run s A a n k idxs ix0 HA Hres) as Heff.
  assert (Hall : svd_rounds k (seq 0 n) a ix0 = (Ac, ix, Raise e)).
  { replace n with (nn + S (n - S nn)) by lia.
    rewrite seq_app, svd_rounds_app, Hrounds. simpl.
    unfold svd_round_on.
    replace (length ix <=? nn) with true by (symmetry; apply Nat.leb_le; lia).
    rewrite Hpick. reflexivity. }
  rewrite Hall in Heff. simpl in Heff.
  destruct Heff as (_ & _ & Hl & Hr). auto.
Qed.

(** X7. The guard of [pcovr_select] covers the construction of the
    covariance only: when [get_Ct] returns in round nn but
    [sorted_eig(Ct, n=k)] or the scoring of its result raises, the call
    raises that exception instead of returning the indices gathered,
    which stay in a resume list given by the caller. *)
Theorem pcovr_select_pick_failure s A a Y y n alpha k idxs ix0 nn Ac Yc ix Ct e :
  s !! A = Some (Arr a) -> s !! Y = Some (Arr y) -> resume_list s idxs ix0 ->
  nn < n ->
  pcovr_rounds alpha k (seq 0 nn) a y ix0 = (Ac, Yc, ix, Ok false) ->
  length ix <= nn ->
  get_Ct Ac Yc alpha f_default_reg = Ok Ct ->
  pcovr_pick k Ct ix = Raise e ->
  snd (pcovr_select A n Y alpha k idxs s) = Raise e
  /\ forall li, idxs = Some li ->
                fst (pcovr_select A n Y alpha k idxs s) !! li = Some (Lst ix).
Proof.
  intros HA HY Hres Hnn Hrounds Hlen HCt Hpick.
  pose proof (pcovr_select_run s A a Y y n alpha k idxs ix0 HA HY Hres) as Heff.
  assert (Hall : pcovr_rounds alpha k (seq 0 n) a y ix0 = (Ac, Yc, ix, Raise e)).
  { replace n with (nn + S (n - S nn)) by lia.
    rewrite seq_app, pcovr_rounds_app, Hrounds. simpl.
    unfold pcovr_round_on.
    replace (length ix <=? nn) with true by (symmetry; apply Nat.leb_le; lia).
    rewrite HCt, Hpick. reflexivity. }
  rewrite Hall in Heff. simpl in Heff.
  destruct Heff as (_ & _ & Hl & Hr). auto.
Qed.

Lemma get_Ct_rows X Y alpha reg C :
  get_Ct X Y alpha reg = Ok C ->
  nrows Y = nrows X /\ nrows C = ncols X /\ ncols C = ncols X.
Proof.
  unfold get_Ct. unfold matmul at 1. simpl.
  rewrite Nat.eqb_refl. simpl.
  destruct (sorted_eig _ _ _) as [[v U]|e]; simpl; [|discriminate].
  destruct (mask_columns _ _) as [U_C|e]; simpl; [|discriminate].
  destruct (mask_vector _ _) as [v_C|e]; simpl; [|discriminate].
  destruct (res_bind (matmul U_C (diag (map fsqrt v_C))) _) as [Csqrt|e]; simpl;
    [|discriminate].
  destruct (res_bind (matmul U_C (diag (map (fdiv f1) v_C))) _) as [Cinv|e]; simpl;
    [|discriminate].
  unfold matmul at 1. simpl.
  destruct (nrows X =? nrows Y) eqn:Hrows; simpl; [|discriminate].
  apply Nat.eqb_eq in Hrows.
  destruct (matmul Cinv _) as [C1|e]; simpl; [|discriminate].
  destruct (matmul Csqrt C1) as [C2|e]; simpl; [|discriminate].
  destruct (matmul C2 _) as [C3|e]; simpl; [|discriminate].
  unfold zip_arrays. destruct (shape_eqb _ _); [|discriminate].
  intros [= <-]. simpl. auto.
Qed.

(** X8. Whenever [get_Ct] returns, [Y] has as many rows as [X] and the
    covariance returned is square, with one row and one column for
    every column of [X], whatever [sorted_eig] returned. *)
Theorem get_Ct_shape X Y alpha reg C :
  get_Ct X Y alpha reg = Ok C ->
  nrows Y = nrows X /\ nrows C = ncols X /\ ncols C = ncols X.
Proof. apply get_Ct_rows. Qed.

(** X9. A property matrix whose number of rows is not that of [A] is
    not reported by [pcovr_select] called without a resume list: the
    exception of [get_Ct] (the ValueError of the product of [X.T] and
    [Y], unless [sorted_eig] raised before) is taken by the bare
    [except] of round 0 and the call returns the empty list, for
    every n. *)
Theorem pcovr_select_mismatched_Y s A a Y y n alpha k :
  s !! A = Some (Arr a) -> s !! Y = Some (Arr y) -> nrows y <> nrows a ->
  outcome (pcovr_select A n Y alpha k None s) = Ok [].
Proof.
  intros HA HY Hne.
  pose proof (pcovr_select_run s A a Y y n alpha k None [] HA HY eq_refl) as Heff.
  rewrite (outcome_of_effect _ _ _ _ _ Heff).
  destruct n as [|n]; [reflexivity|].
  simpl. unfold pcovr_round_on. simpl.
  destruct (get_Ct a y alpha f_default_reg) as [C|e] eqn:HC.
  - apply get_Ct_rows in HC as [Hr _]. contradiction.
  - reflexivity.
Qed.

Lemma update_array_shape (Y X_c R : ndarray F) :
  update_array Y X_c = Ok R ->
  nrows R = nrows Y /\ ncols R = ncols Y /\ nrows X_c = nrows Y.
Proof.
  unfold update_array.
  destruct (res_bind (matmul (transpose X_c) X_c) _) as [v1|e]; simpl; [|discriminate].
  unfold matmul at 1.
  destruct (ncols X_c =? nrows v1); simpl; [|discriminate].
  unfold matmul at 1. simpl.
  destruct (ncols v1 =? ncols X_c); simpl; [|discriminate].
  unfold matmul at 1. simpl.
  destruct (nrows X_c =? nrows Y) eqn:Hrows; simpl; [|discriminate].
  apply Nat.eqb_eq in Hrows.
  unfold zip_arrays. destruct (shape_eqb _ _); [|discriminate].
  intros [= <-]. simpl. auto.
Qed.

(** X10. The same property matrix is reported when the call resumes
    from a non-empty list: round 0 selects nothing, so [get_Ct] and its
    guard are skipped, and the exception of the deflation or of
    [update] reaches the caller. *)
Theorem pcovr_select_resumed_mismatched_Y s A a Y y n alpha k li ix0 :
  s !! A = Some (Arr a) -> s !! Y = Some (Arr y) -> s !! li = Some (Lst ix0) ->
  nrows y <> nrows a -> 0 < n -> ix0 <> [] ->
  exists e, snd (pcovr_select A n Y alpha k (Some li) s) = Raise e.
Proof.
  intros HA HY Hli Hne Hn Hix.
  pose proof (pcovr_select_run s A a Y y n alpha k (Some li) ix0 HA HY Hli)
    as (_ & _ & _ & Hr).
  destruct n as [|n]; [lia|].
  simpl in Hr. unfold pcovr_round_on in Hr.
  destruct ix0 as [|j0 ix0]; [contradiction|]. simpl in Hr.
  unfold deflate_array in Hr.
  destruct (j0 <? ncols a); simpl in Hr; [|eauto].
  set (Ac1 := deflate_columns (unit_column a j0) a) in *.
  destruct (take_columns Ac1 (j0 :: ix0)) as [X_c|e] eqn:HX; simpl in Hr; [|eauto].
  destruct (update_array y X_c) as [R|e] eqn:HR; simpl in Hr; [|eauto].
  exfalso. apply Hne.
  unfold take_columns in HX. destruct (forallb _ _); [|discriminate].
  injection HX as <-.
  apply update_array_shape in HR as (_ & _ & Hrows). simpl in Hrows.
  rewrite <- Hrows. apply (deflate_columns_shape (unit_column a j0) a).
Qed.

(** X11. [update] is all or nothing: either it overwrites [Y_copy]
    with an array of the same shape (and then [X_c] has as many rows as
    [Y_copy]), or it raises and leaves every object as it was. *)
Theorem update_all_or_nothing s y (Yc X_c : ndarray F) :
  s !! y = Some (Arr Yc) ->
  (exists R, update y X_c s = (<[y := Arr R]> s, Ok tt)
             /\ nrows R = nrows Yc /\ ncols R = ncols Yc /\ nrows X_c = nrows Yc)
  \/ (exists e, update y X_c s = (s, Raise e)).
Proof.
  intros Hy. rewrite (update_run _ _ _ _ Hy).
  destruct (update_array Yc X_c) as [R|e] eqn:HR.
  - left. exists R. split; [reflexivity|]. now apply update_array_shape.
  - right. now exists e.
Qed.

(** ** When the selections return *)














(** Rounds below the length of the resume list do not look at
    [alpha] or [k]. *)
Lemma pcovr_rounds_replay_only alpha k alpha' k' m :
  forall a Ac Yc ix,
    a + m <= length ix ->
    pcovr_rounds alpha k (seq a m) Ac Yc ix = pcovr_rounds alpha' k' (seq a m) Ac Yc ix
    /\ snd (fst (pcovr_rounds alpha k (seq a m) Ac Yc ix)) = ix
    /\ snd (pcovr_rounds alpha k (seq a m) Ac Yc ix) <> Ok true.
Proof.
  induction m as [|m IH]; intros a Ac Yc ix Hlen; simpl.
  - repeat split. discriminate.
  - unfold pcovr_round_on.
    replace (length ix <=? a) with false by (symmetry; apply Nat.leb_gt; lia).
    destruct (res_bind (list_get ix a) _) as [Ac1|e]; simpl;
      [|repeat split; discriminate].
    destruct (res_bind (take_columns Ac1 ix) _) as [Yc1|e]; simpl;
      [|repeat split; discriminate].
    apply IH. lia.
Qed.

(** X26. With a resume list of at least n indices [pcovr_select]
    builds no covariance and selects nothing: what it leaves to its
    caller (the copy of the whole list, or the exception of the
    deflation or of [update]) is the same for every [alpha] and [k], and
    the caller's list is left as it was. *)
Theorem pcovr_select_long_resume_list s A a Y y n alpha k alpha' k' li ix0 :
  s !! A = Some (Arr a) -> s !! Y = Some (Arr y) -> s !! li = Some (Lst ix0) ->
  n <= length ix0 ->
  outcome (pcovr_select A n Y alpha k (Some li) s)
  = outcome (pcovr_select A n Y alpha' k' (Some li) s)
  /\ (forall L, outcome (pcovr_select A n Y alpha k (Some li) s) = Ok L -> L = ix0)
  /\ fst (pcovr_select A n Y alpha k (Some li) s) !! li = Some (Lst ix0).
Proof.
  intros HA HY Hli Hn.
  pose proof (pcovr_select_run s A a Y y n alpha k (Some li) ix0 HA HY Hli) as Heff.
  pose proof (pcovr_select_run s A a Y y n alpha' k' (Some li) ix0 HA HY Hli) as Heff'.
  destruct (pcovr_rounds_replay_only alpha k alpha' k' n 0 a y ix0 ltac:(lia))
    as (Heq & Hix & _).
  rewrite <- Heq in Heff'. rewrite Hix in Heff, Heff'.
  rewrite (outcome_of_effect _ _ _ _ _ Heff), (outcome_of_effect _ _ _ _ _ Heff').
  split; [reflexivity|]. split.
  - intros L HL. destruct (forget _); [now injection HL|discriminate].
  - destruct Heff as (_ & _ & Hl & _). now apply Hl.
Qed.

End SelectionFacts.

(** * More on the class CUR *)

Section CURBehaviour.
Context {F : Type} `{SF : Scalar F} `{NL : NumLib F}.
Implicit Types (s : store F) (self : CUR F).
Local Open Scope py_scope.
Local Open Scope res_scope.

Lemma symmetric_flag_Ok (A : ndarray F) tol :
  exists b, symmetric_flag A tol = Ok b /\ (is_square A = false -> b = false).
Proof.
  unfold symmetric_flag, is_square.
  destruct (shape_eqb A (transpose A)) eqn:E.
  - unfold zip_arrays. rewrite E. simpl. eexists. split; [reflexivity|].
    intros Hsq. unfold shape_eqb in E. simpl in E. rewrite Hsq in E. discriminate.
  - exists false. auto.
Qed.

(** X14. The symmetry test of [CUR.__init__] never raises, for a
    matrix of any shape: [A - A.T] is only evaluated once the shapes
    agree, and a matrix that is not square is flagged non-symmetric. *)
Theorem symmetric_flag_never_raises (A : ndarray F) tol :
  exists b, symmetric_flag A tol = Ok b /\ (is_square A = false -> b = false).
Proof. apply symmetric_flag_Ok. Qed.

Lemma np_all_false r c (f : nat -> nat -> F) i j :
  i < r -> j < c -> truthy (f i j) = false -> np_all (tabulate r c f) = false.
Proof.
  intros Hi Hj Hf. unfold np_all, tabulate. simpl.
  apply not_true_is_false. intros Hall.
  rewrite forallb_forall in Hall.
  assert (Hrow : forallb truthy (map (f i) (seq 0 c)) = true).
  { apply Hall. apply (in_map (fun i => map (f i) (seq 0 c))). apply in_seq. lia. }
  rewrite forallb_forall in Hrow.
  assert (Hent : truthy (f i j) = true).
  { apply Hrow. apply in_map. apply in_seq. lia. }
  congruence.
Qed.

(** X23. The symmetry flag of a square matrix does not look at the
    matrix beyond one diagonal entry: as soon as [|d - d|] is 0 for
    some diagonal entry [d] (every finite number), the flag is
    [0 < symmetry_tolerance], whatever the other entries are. *)
Theorem symmetric_flag_is_tolerance_sign (A : ndarray F) i tol :
  nrows A = ncols A -> i < nrows A ->
  truthy (fabs (fsub (get A i i) (get A i i))) = false ->
  symmetric_flag A tol = Ok (fltb f0 tol).
Proof.
  intros Hsq Hi Hd. unfold symmetric_flag.
  assert (Hshape : shape_eqb A (transpose A) = true).
  { unfold shape_eqb. simpl. rewrite Hsq, Nat.eqb_refl. reflexivity. }
  rewrite Hshape. unfold zip_arrays. rewrite Hshape. simpl.
  unfold map_array. simpl.
  rewrite (np_all_false _ _ _ i i); [reflexivity|exact Hi|lia|].
  rewrite get_tabulate by lia.
  unfold transpose. rewrite get_tabulate by lia. exact Hd.
Qed.

Lemma compute_without_select self n_c n_r s a :
  s !! self_A self = Some (Arr a) ->
  self_select self = None -> self_idx_c self = None ->
  compute self n_c n_r s = (s, Raise TypeError).
Proof.
  intros HA Hsel Hc. unfold compute.
  rewrite (bind_Ok _ _ _ _ _ (read_arr_Ok _ _ _ HA)).
  apply bind_Raise. unfold resolve_idx. rewrite Hc.
  apply bind_Raise. unfold compute_idx.
  apply bind_Raise. unfold call_select. now rewrite Hsel.
Qed.

Lemma init_without_precompute s matrix a fsel pi tol p :
  s !! matrix = Some (Arr a) ->
  exists sym,
    CUR_init matrix None fsel pi tol p s
    = (s, Ok {| self_A := matrix; self_symmetric := sym; self_fs := fsel;
                self_select := match pi with
                               | ByName name => selections name
                               | Callable f => Some f
                               end;
                self_params := p; self_idx_c := None; self_idx_r := None |}).
Proof.
  intros HA. destruct (symmetric_flag_Ok a tol) as (b & Hb & _).
  exists b. unfold CUR_init.
  rewrite (bind_Ok _ _ _ _ _ (read_arr_Ok _ _ _ HA)).
  unfold bind at 1, lift. rewrite Hb. reflexivity.
Qed.

(** X15. A selection name that is not a key of [selections] is
    accepted by the constructor (without [precompute]), which stores
    [None] as the selection; every [compute] on the instance then
    raises TypeError and changes nothing. *)
Theorem unknown_selection_fails_at_compute s matrix a name fsel tol p :
  s !! matrix = Some (Arr a) -> selections name = None ->
  exists self,
    CUR_init matrix None fsel (ByName name) tol p s = (s, Ok self)
    /\ forall n_c n_r, compute self n_c n_r s = (s, Raise TypeError).
Proof.
  intros HA Hname.
  destruct (init_without_precompute s matrix a fsel (ByName name) tol p HA)
    as (sym & Hinit).
  eexists. split; [exact Hinit|].
  intros n_c n_r. now apply (compute_without_select _ _ _ _ a).
Qed.

Lemma pcovr_entry_missing A n idxs p s :
  p_Y p = None \/ p_alpha p = None -> pcovr_entry A n idxs p s = (s, Raise TypeError).
Proof.
  intros H. unfold pcovr_entry.
  destruct (p_Y p), (p_alpha p); try reflexivity. destruct H; discriminate.
Qed.

(** X16. With [pi_function = 'pcovr'] and [params] lacking [Y] or
    [alpha] the constructor (without [precompute]) succeeds, its check
    being a printed message only; every [compute] on the instance then
    raises TypeError and changes nothing. *)
Theorem pcovr_without_Y_fails_at_compute s matrix a fsel tol p :
  s !! matrix = Some (Arr a) -> p_Y p = None \/ p_alpha p = None ->
  exists self,
    CUR_init matrix None fsel (ByName "pcovr") tol p s = (s, Ok self)
    /\ forall n_c n_r, compute self n_c n_r s = (s, Raise TypeError).
Proof.
  intros HA Hp.
  destruct (init_without_precompute s matrix a fsel (ByName "pcovr") tol p HA)
    as (sym & Hinit).
  eexists. split; [exact Hinit|].
  intros n_c n_r. unfold compute. simpl.
  rewrite (bind_Ok _ _ _ _ _ (read_arr_Ok _ _ _ HA)).
  apply bind_Raise. unfold resolve_idx. simpl.
  apply bind_Raise. unfold compute_idx. simpl.
  apply bind_Raise. unfold call_select. simpl.
  now apply pcovr_entry_missing.
Qed.

Lemma compute_idx_needs_n_r self n_c s s' ii :
  self_fs self = false -> self_symmetric self = false ->
  compute_idx self n_c None s <> (s', Ok ii).
Proof.
  intros Hfs Hsym H. unfold compute_idx in H. rewrite Hfs, Hsym in H. simpl in H.
  apply bind_inv in H as (s1 & lc & _ & H).
  apply bind_inv in H as (s2 & a & _ & H).
  apply bind_inv in H as (s3 & At & _ & H).
  apply bind_inv in H as (s4 & n & H & _).
  discriminate.
Qed.

(** X17. On an instance that is neither symmetric nor in feature-select
    mode, and whose selection is an entry of [selections] (or [None]),
    [compute(n_c)] without [n_r] never returns: after the printed
    message the missing count reaches [range] or a comparison and the
    call raises, whatever the caches hold. *)
Theorem compute_needs_n_r self name n_c s :
  self_fs self = false -> self_symmetric self = false ->
  self_select self = selections name ->
  exists e, snd (compute self n_c None s) = Raise e.
Proof.
  intros Hfs Hsym _.
  destruct (compute self n_c None s) as [s' [[self' out]|e]] eqn:H; [|eauto].
  exfalso. apply compute_inv in H as (a & ic & ir & HA & H).
  assert (Heff : effective_n_r self a n_c None = None).
  { unfold effective_n_r. now rewrite Hfs, Hsym. }
  rewrite Heff in H.
  apply resolve_idx_inv in H
    as [(lc' & lr' & H & _) | (_ & _ & lc & lr & cc & cr & n & _ & _ & _ & _ & Hn & _)].
  - now apply compute_idx_needs_n_r in H.
  - discriminate.
Qed.

Lemma compute_idx_symmetric self n_c n_r s s' lc lr :
  self_fs self = false -> self_symmetric self = true ->
  compute_idx self n_c n_r s = (s', Ok (lc, lr)) -> lr = lc.
Proof.
  intros Hfs Hsym H. unfold compute_idx in H. rewrite Hfs, Hsym in H. simpl in H.
  apply bind_inv in H as (s1 & l & _ & H). now injection H as _ <- <-.
Qed.

(** X18. On a symmetric instance outside feature-select mode the row
    cache is the column cache, one and the same list object: if it is
    so before a [compute] that returns (as on a new instance, where
    both are [None]), it is so afterwards, for every selection
    function, and the cache is then set. *)
Theorem symmetric_mode_shares_index_list self n_c n_r s s' self' out :
  self_symmetric self = true -> self_fs self = false ->
  self_idx_r self = self_idx_c self ->
  compute self n_c n_r s = (s', Ok (self', out)) ->
  self_idx_r self' = self_idx_c self' /\ is_Some (self_idx_c self')
  /\ self_symmetric self' = true /\ self_fs self' = false.
Proof.
  intros Hsym Hfs Hsame H.
  apply compute_inv in H as (a & ic & ir & HA & H).
  pose proof (resolve_idx_fields _ _ _ _ _ _ _ H) as (_ & Hsym' & Hfs').
  rewrite Hsym', Hfs'.
  apply resolve_idx_inv in H
    as [(lc' & lr' & H & -> & _) | (_ & -> & lc & _ & _ & _ & _ & Hc & _)].
  - apply compute_idx_symmetric in H; auto. subst. simpl. eauto.
  - rewrite Hsame, Hc. eauto.
Qed.

Lemma resolve_idx_warm self n_c n_r s lc lr cc cr :
  self_idx_c self = Some lc -> self_idx_r self = Some lr ->
  s !! lc = Some (Lst cc) -> s !! lr = Some (Lst cr) ->
  n_c <= length cc ->
  (forall n, n_r = Some n -> n <= length cr) ->
  resolve_idx self n_c n_r s
  = (s, match n_r with
        | Some n => Ok (self, (take n_c cc, take n cr))
        | None => Raise TypeError
        end).
Proof.
  intros Hc Hr Hlc Hlr Hn Hnr. unfold resolve_idx. rewrite Hc, Hr.
  replace (negb (self_fs self) && negb (bool_decide (is_Some (Some lr)))) with false
    by (symmetry; apply andb_false_iff; right; reflexivity).
  rewrite (bind_Ok _ _ _ _ _ (read_list_Ok _ _ _ Hlc)).
  replace (length cc <? n_c) with false by (symmetry; apply Nat.ltb_ge; lia).
  unfold list_of.
  destruct n_r as [n|].
  - unfold bind at 1. unfold bind at 1. rewrite (read_list_Ok _ _ _ Hlr). simpl.
    replace (length cr <? n) with false
      by (symmetry; apply Nat.ltb_ge; apply Hnr; reflexivity).
    unfold ret at 1.
    rewrite (bind_Ok _ _ _ _ _ (read_list_Ok _ _ _ Hlr)). reflexivity.
  - unfold bind at 1. unfold bind at 1. rewrite (read_list_Ok _ _ _ Hlr). reflexivity.
Qed.

(** What follows the resolution of the indices in [compute] only
    reads. *)
Lemma compute_tail_store self (ii : list nat * list nat) s :
  fst ((a <- read_arr (self_A self) ;;
        A_c <- lift (take_columns a (fst ii)) ;;
        A_r <- (if self_symmetric self && negb (self_fs self) then ret (transpose A_c)
                else if self_fs self then ret a
                     else lift (take_rows a (snd ii))) ;;
        S <- lift (try! Sc := pinv A_c in
                   try! ScA := matmul Sc a in
                   try! Sr := pinv A_r in
                   matmul ScA Sr) ;;
        ret (self, (A_c, S, A_r))) s) = s.
Proof.
  unfold bind, read_arr, lift, ret.
  destruct (s !! self_A self) as [[a|l]|]; simpl; auto.
  destruct (take_columns a (fst ii)); simpl; auto.
  destruct (self_symmetric self && negb (self_fs self)); simpl.
  { destruct (res_bind _ _); reflexivity. }
  destruct (self_fs self); simpl.
  { destruct (res_bind _ _); reflexivity. }
  destruct (take_rows a (snd ii)); simpl; auto.
  destruct (res_bind _ _); reflexivity.
Qed.

Lemma compute_warm self n_c n_r s a lc lr cc cr :
  s !! self_A self = Some (Arr a) ->
  self_idx_c self = Some lc -> self_idx_r self = Some lr ->
  s !! lc = Some (Lst cc) -> s !! lr = Some (Lst cr) ->
  n_c <= length cc ->
  (forall n, effective_n_r self a n_c n_r = Some n -> n <= length cr) ->
  fst (compute self n_c n_r s) = s
  /\ forall self' A_c S A_r,
       snd (compute self n_c n_r s) = Ok (self', (A_c, S, A_r)) ->
       self' = self /\ A_c = select_columns a (take n_c cc) /\ ncols A_c = n_c.
Proof.
  intros HA Hc Hr Hlc Hlr Hn Hnr.
  assert (Hres := resolve_idx_warm self n_c (effective_n_r self a n_c n_r) s
                                   lc lr cc cr Hc Hr Hlc Hlr Hn Hnr).
  split.
  - unfold compute. rewrite (bind_Ok _ _ _ _ _ (read_arr_Ok _ _ _ HA)).
    fold (effective_n_r self a n_c n_r). unfold bind at 1. rewrite Hres.
    destruct (effective_n_r self a n_c n_r) as [n|]; [|reflexivity].
    apply (compute_tail_store self).
  - intros self' A_c S A_r H.
    destruct (compute self n_c n_r s) as [s' r] eqn:Hrun. simpl in H. subst r.
    apply compute_triple_inv in Hrun
      as (a1 & a' & ic & ir & Pc & Pr & HA1 & Hres' & HA' & Hcols & _).
    rewrite HA in HA1. injection HA1 as <-.
    rewrite Hres in Hres'.
    destruct (effective_n_r self a n_c n_r) as [n|]; [|discriminate].
    injection Hres' as <- <- <- <-.
    rewrite HA in HA'. injection HA' as <-.
    split; [reflexivity|].
    unfold take_columns in Hcols. destruct (forallb _ _); [|discriminate].
    injection Hcols as <-. split; [reflexivity|].
    simpl. rewrite length_take. lia.
Qed.

(** X19. When both caches hold at least the counts asked for,
    [compute] runs no selection: it leaves every object and the
    instance as they were, and the columns it returns are the first n_c
    cached indices, exactly n_c of them. *)
Theorem compute_from_warm_cache self n_c n_r s a lc lr cc cr :
  s !! self_A self = Some (Arr a) ->
  self_idx_c self = Some lc -> self_idx_r self = Some lr ->
  s !! lc = Some (Lst cc) -> s !! lr = Some (Lst cr) ->
  n_c <= length cc ->
  (forall n, effective_n_r self a n_c n_r = Some n -> n <= length cr) ->
  fst (compute self n_c n_r s) = s
  /\ forall self' A_c S A_r,
       snd (compute self n_c n_r s) = Ok (self', (A_c, S, A_r)) ->
       self' = self /\ A_c = select_columns a (take n_c cc) /\ ncols A_c = n_c.
Proof. apply compute_warm. Qed.

(** What [compute_idx] leaves with the SVD selection. *)
Lemma compute_idx_svd self n_c n_r s a Ic Ir s' lc' lr' :
  self_select self = Some svd_entry -> s !! self_A self = Some (Arr a) ->
  resume_list s (self_idx_c self) Ic -> resume_list s (self_idx_r self) Ir ->
  compute_idx self n_c n_r s = (s', Ok (lc', lr')) ->
  s' !! self_A self = Some (Arr a)
  /\ exists ic,
       s' !! lc' = Some (Lst ic) /\ length ic = Nat.max (length Ic) n_c
       /\ (self_fs self = true -> s' !! lr' = Some (Lst (seq 0 (ncols a))))
       /\ (self_fs self = false ->
           exists ir, s' !! lr' = Some (Lst ir)
                      /\ if self_symmetric self then lr' = lc'
                         else exists n, n_r = Some n /\ n <= length ir
                                        /\ (self_idx_r self = None -> length ir = n)).
Proof.
  intros Hsel HA HIc HIr H. unfold compute_idx in H.
  rewrite (call_select_Some _ _ Hsel) in H.
  apply bind_inv in H as (s1 & lc & Hc & H). unfold svd_entry in Hc.
  destruct (svd_select_returns _ _ _ _ _ _ _ _ _ HA HIc Hc)
    as (ic & Hlc & Hlen & _ & Hfresh & Hkeep & Hli).
  assert (HA1 : s1 !! self_A self = Some (Arr a)).
  { apply Hkeep; [exact HA|]. intros Heq. rewrite Heq in HIc. simpl in HIc. congruence. }
  destruct (self_fs self) eqn:Hfs.
  - apply bind_inv in H as (s2 & a2 & Ha2 & H).
    apply read_arr_inv in Ha2 as [-> Ha2'].
    apply bind_inv in H as (s3 & lr & Hal & H).
    unfold alloc in Hal. injection Hal as <- <-. injection H as <- <- <-.
    split; [now apply alloc_lookup_old|].
    exists ic. split; [now apply alloc_lookup_old|]. split; [exact Hlen|].
    split; [|discriminate]. intros _.
    rewrite HA1 in Ha2'. injection Ha2' as <-. apply alloc_lookup_new.
  - destruct (self_symmetric self) eqn:Hsym; simpl in H.
    + injection H as <- <- <-. split; [exact HA1|].
      exists ic. split; [exact Hlc|]. split; [exact Hlen|].
      split; [discriminate|]. intros _. eauto.
    + apply bind_inv in H as (s2 & a2 & Ha2 & H).
      apply read_arr_inv in Ha2 as [-> Ha2].
      apply bind_inv in H as (s3 & At & Hal & H).
      unfold alloc in Hal. injection Hal as <- <-.
      apply bind_inv in H as (s4 & n & Hn & H).
      destruct n_r as [n'|]; [|discriminate]. injection Hn as <- <-.
      apply bind_inv in H as (s5 & lr & Hr & H). injection H as <- <- <-.
      unfold svd_entry in Hr.
      assert (HIr' : exists Ir', resume_list (s1 ++ [Arr (transpose a2)])
                                             (self_idx_r self) Ir'
                                 /\ (self_idx_r self = None -> Ir' = [])).
      { destruct (self_idx_r self) as [l|] eqn:Hl; [|exists []; split; reflexivity].
        simpl in HIr.
        destruct (decide (self_idx_c self = Some l)) as [Heq|Hne].
        - exists ic. split; [|discriminate]. simpl. apply alloc_lookup_old. now apply Hli.
        - exists Ir. split; [|discriminate]. simpl. apply alloc_lookup_old.
          apply Hkeep; [exact HIr|]. congruence. }
      destruct HIr' as (Ir' & HIr' & Hnone).
      destruct (svd_select_returns _ _ _ _ _ _ _ _ _ (alloc_lookup_new s1 _) HIr' Hr)
        as (ir & Hlr & Hlenr & _ & _ & Hkeep' & _).
      split.
      * apply Hkeep'; [now apply alloc_lookup_old|].
        intros Heq. rewrite Heq in HIr. simpl in HIr. congruence.
      * exists ic. split.
        { apply Hkeep'; [now apply alloc_lookup_old|].
          intros Heq. rewrite Heq in HIr. simpl in HIr.
          apply lookup_lt_Some in HIr. lia. }
        split; [exact Hlen|]. split; [discriminate|].
        intros _. exists ir. split; [exact Hlr|].
        exists n'. split; [reflexivity|]. split; [lia|].
        intros Hn. rewrite (Hnone Hn) in Hlenr. simpl in Hlenr. lia.
Qed.

(** X20. With the SVD selection, [compute] returns at least n_c
    columns, and more than n_c only to the extent the column cache was
    longer: [A_c] has the rows of [A] and between n_c and
    max(n_c, len(idx_c)) columns. *)
Theorem compute_svd_column_count self n_c n_r s a Ic Ir s' self' (A_c S A_r : ndarray F) :
  self_select self = Some svd_entry -> s !! self_A self = Some (Arr a) ->
  resume_list s (self_idx_c self) Ic -> resume_list s (self_idx_r self) Ir ->
  compute self n_c n_r s = (s', Ok (self', (A_c, S, A_r))) ->
  n_c <= ncols A_c /\ ncols A_c <= Nat.max n_c (length Ic) /\ nrows A_c = nrows a.
Proof.
  intros Hsel HA HIc HIr H.
  apply compute_triple_inv in H
    as (a1 & a' & ic & ir & Pc & Pr & HA1 & Hres & HA' & Hcols & _).
  rewrite HA in HA1. injection HA1 as <-.
  assert (Hshape : ncols A_c = length ic /\ nrows A_c = nrows a').
  { unfold take_columns in Hcols. destruct (forallb _ _); [|discriminate].
    injection Hcols as <-. auto. }
  destruct Hshape as [-> ->].
  apply resolve_idx_inv in Hres
    as [(lc' & lr' & Hidx & _ & Hlc & _)
       | (-> & _ & lc & lr & cc & cr & n & Hc & _ & Hlc & _ & _ & Hn & _ & -> & _)].
  - destruct (compute_idx_svd _ _ _ _ _ _ _ _ _ _ Hsel HA HIc HIr Hidx)
      as (HA'' & ic' & Hlc' & Hlen & _).
    rewrite Hlc in Hlc'. injection Hlc' as <-.
    rewrite HA' in HA''. injection HA'' as <-. lia.
  - rewrite HA in HA'. injection HA' as <-.
    rewrite length_take. lia.
Qed.

(** X21. [CUR(A, precompute=n)] with the SVD selection warms the
    caches: a later [compute(m, m')] with m, m' <= n runs no selection,
    leaves every object and the instance as the constructor left them,
    and returns exactly m columns. *)
Theorem precompute_warms_cache s matrix a n m m' tol p s1 self :
  s !! matrix = Some (Arr a) ->
  CUR_init matrix (Some (inl n)) false (ByName "svd") tol p s = (s1, Ok self) ->
  m <= n -> m' <= n ->
  fst (compute self m (Some m') s1) = s1
  /\ forall self' A_c S A_r,
       snd (compute self m (Some m') s1) = Ok (self', (A_c, S, A_r)) ->
       self' = self /\ ncols A_c = m.
Proof.
  intros HA Hinit Hm Hm'. unfold CUR_init in Hinit.
  apply bind_inv in Hinit as (s2 & a2 & Ha2 & Hinit).
  apply read_arr_inv in Ha2 as [-> Ha2]. rewrite HA in Ha2. injection Ha2 as <-.
  apply bind_inv in Hinit as (s3 & sym & Hsym & Hinit).
  apply lift_inv in Hsym as [-> Hsym].
  apply bind_inv in Hinit as (s4 & [lc lr] & Hidx & Hinit).
  injection Hinit as <- <-.
  set (self0 := {| self_A := matrix; self_symmetric := sym; self_fs := false;
                   self_select := selections "svd"; self_params := p;
                   self_idx_c := None; self_idx_r := None |}) in *.
  destruct (compute_idx_svd self0 n (Some n) s a [] [] s4 lc lr
                            eq_refl HA eq_refl eq_refl Hidx)
    as (HA4 & ic & Hlc & Hlen & _ & Hr).
  destruct (Hr eq_refl) as (ir & Hlr & Hir).
  assert (Hlenr : n <= length ir).
  { simpl in Hir. destruct sym.
    - subst lr. rewrite Hlc in Hlr. injection Hlr as <-. simpl in Hlen. lia.
    - destruct Hir as (n' & [= <-] & Hn' & _). exact Hn'. }
  destruct (compute_warm (set_idx self0 (Some lc) (Some lr)) m (Some m') s4 a
                         lc lr ic ir HA4 eq_refl eq_refl Hlc Hlr) as [Hst Hout].
  - simpl in Hlen. lia.
  - intros k Hk. unfold effective_n_r in Hk. simpl in Hk.
    rewrite andb_false_r in Hk. injection Hk as <-. lia.
  - split; [exact Hst|]. intros self' A_c S A_r H.
    destruct (Hout _ _ _ _ H) as (-> & _ & Hcols). auto.
Qed.

Lemma compute_unfold self n_c n_r s a :
  s !! self_A self = Some (Arr a) ->
  compute self n_c n_r s
  = bind (resolve_idx self n_c (effective_n_r self a n_c n_r))
         (fun si => compute_tail (fst si) (fst (snd si)) (snd (snd si))) s.
Proof.
  intros HA. unfold compute.
  now rewrite (bind_Ok _ _ _ _ _ (read_arr_Ok _ _ _ HA)).
Qed.

Lemma compute_tail_inv self ic ir s s' self' out :
  compute_tail self ic ir s = (s', Ok (self', out)) -> s' = s /\ self' = self.
Proof.
  unfold compute_tail. intros H.
  apply bind_inv in H as (s1 & a & Ha & H). apply read_arr_inv in Ha as [-> _].
  apply bind_inv in H as (s1 & A_c & Hc & H). apply lift_inv in Hc as [-> _].
  apply bind_inv in H as (s1 & A_r & Hr & H).
  assert (s1 = s) as ->.
  { destruct (self_symmetric self && negb (self_fs self));
      [now injection Hr as <- _|].
    destruct (self_fs self); [now injection Hr as <- _|].
    now apply lift_inv in Hr as [-> _]. }
  apply bind_inv in H as (s1 & S & HS & H). apply lift_inv in HS as [-> _].
  now injection H as <- <- _.
Qed.

(** The row indices only matter outside the symmetric and the
    feature-select mode. *)
Lemma compute_tail_rows self ic ir ir' s :
  self_symmetric self && negb (self_fs self) = true \/ self_fs self = true ->
  compute_tail self ic ir s = compute_tail self ic ir' s.
Proof.
  intros H. unfold compute_tail.
  destruct (self_symmetric self && negb (self_fs self)); [reflexivity|].
  destruct H as [H|H]; [discriminate|]. now rewrite H.
Qed.

(** X22. With the SVD selection, a [compute] that returns on a new
    instance can be repeated: the same call on the instance it left
    runs no selection, changes nothing and returns the same three
    factors. (In symmetric mode a row count above n_c is excluded: the
    row cache is the column cache, of length n_c, and a larger n_r makes
    every call select again.) *)
Theorem compute_is_repeatable self n_c n_r s a s' self' out :
  self_select self = Some svd_entry -> s !! self_A self = Some (Arr a) ->
  self_idx_c self = None -> self_idx_r self = None ->
  (self_symmetric self = true -> self_fs self = false ->
   forall k, n_r = Some k -> k <= n_c) ->
  compute self n_c n_r s = (s', Ok (self', out)) ->
  compute self' n_c n_r s' = (s', Ok (self', out)).
Proof.
  intros Hsel HA Hc Hr Hsym H.
  rewrite (compute_unfold _ _ _ _ _ HA) in H.
  apply bind_inv in H as (s1 & [self1 [ic ir]] & Hres & Htail). simpl in Htail.
  pose proof (compute_tail_inv _ _ _ _ _ _ _ Htail) as [-> ->].
  apply resolve_idx_inv in Hres
    as [(lc' & lr' & Hidx & -> & Hlc & Hlr)
       | (_ & _ & lc & _ & _ & _ & _ & Hc' & _)]; [|congruence].
  assert (HIc : resume_list s (self_idx_c self) []) by (now rewrite Hc).
  assert (HIr : resume_list s (self_idx_r self) []) by (now rewrite Hr).
  destruct (compute_idx_svd _ _ _ _ _ _ _ _ _ _ Hsel HA HIc HIr Hidx)
    as (HA1 & ic' & Hlc' & Hlen & Hfs & Hnfs).
  rewrite Hlc in Hlc'. injection Hlc' as <-. simpl in Hlen.
  set (self1 := set_idx self (Some lc') (Some lr')) in *.
  assert (HA1' : s1 !! self_A self1 = Some (Arr a)) by exact HA1.
  rewrite (compute_unfold _ _ _ _ _ HA1').
  assert (Heff : effective_n_r self1 a n_c n_r = effective_n_r self a n_c n_r)
    by reflexivity.
  rewrite Heff.
  assert (Hrows : exists n,
             effective_n_r self a n_c n_r = Some n /\ n <= length ir
             /\ compute_tail self1 ic (take n ir) s1 = compute_tail self1 ic ir s1).
  { unfold effective_n_r. destruct (self_fs self) eqn:Efs.
    - exists (ncols a). split; [reflexivity|].
      pose proof (Hfs eq_refl) as Hlr'. rewrite Hlr in Hlr'. injection Hlr' as ->.
      rewrite length_seq. split; [lia|].
      apply compute_tail_rows. right. exact Efs.
    - destruct (Hnfs eq_refl) as (ir' & Hlr' & Hcase).
      rewrite Hlr in Hlr'. injection Hlr' as <-.
      destruct (self_symmetric self) eqn:Esym.
      + subst lr'. rewrite Hlc in Hlr. injection Hlr as <-.
        assert (Hmode : self_symmetric self1 && negb (self_fs self1) = true).
        { simpl. now rewrite Esym, Efs. }
        destruct n_r as [k|]; simpl.
        * exists k. split; [reflexivity|]. split; [|apply compute_tail_rows; now left].
          specialize (Hsym eq_refl eq_refl k eq_refl). lia.
        * exists n_c. split; [reflexivity|]. split; [lia|].
          apply compute_tail_rows. now left.
      + destruct Hcase as (n & Hnr & Hle & Hexact).
        unfold effective_n_r in Hnr. rewrite Efs, Esym in Hnr. simpl in Hnr.
        rewrite Hnr. simpl.
        exists n. split; [reflexivity|]. split; [exact Hle|].
        now rewrite take_ge by (rewrite (Hexact Hr); lia). }
  destruct Hrows as (n & Hn & Hle & Hsame).
  unfold bind at 1.
  rewrite (resolve_idx_warm self1 n_c (effective_n_r self a n_c n_r) s1
                            lc' lr' ic ir eq_refl eq_refl Hlc Hlr ltac:(lia)).
  - rewrite Hn. simpl. rewrite take_ge by lia. rewrite Hsame. exact Htail.
  - intros k Hk. rewrite Hn in Hk. injection Hk as <-. exact Hle.
Qed.

End CURBehaviour.
(** * float64: a zero column poisons the working copy *)

Section Float64Facts.
Local Open Scope float_scope.

Lemma nan_mul_l (d : float) : nan * d = nan.
Proof. apply Prim2SF_inj. rewrite mul_spec. reflexivity. Qed.

Lemma sub_nan_r (x : float) : x - nan = nan.
Proof.
  apply Prim2SF_inj. rewrite sub_spec.
  change (Prim2SF nan) with SpecFloat.S754_nan.
  unfold SF64sub, SpecFloat.SFsub. now destruct (Prim2SF x) as [| | |].
Qed.

Lemma fsum_zero_products (l : list nat) :
  fold_left PrimFloat.add
            (map (fun p : float * float => fst p * snd p)
                 (combine (map (fun _ => 0) l) (map (fun _ => 0) l))) 0 = 0.
Proof. induction l as [|x l IH]; simpl; [reflexivity|exact IH]. Qed.

(** X13. In float64, deflating by a column of the working copy that
    is all zero (as a column selected before is, when the rounding left
    nothing of it) does not raise: the norm is 0, [v] is 0/0, and every
    entry of the working copy becomes NaN. *)
Theorem deflate_zero_column_gives_nan (Ac Ac' : ndarray float) j :
  (forall r, (r < nrows Ac)%nat -> get Ac r j = 0) ->
  deflate_array Ac j = Ok Ac' ->
  forall r i, (r < nrows Ac)%nat -> (i < ncols Ac)%nat -> get Ac' r i = nan.
Proof.
  intros Hzero H r i Hr Hi.
  pose proof (deflate_array_Ok _ _ _ H) as (Hj & _ & _).
  unfold deflate_array in H. apply Nat.ltb_lt in Hj. rewrite Hj in H.
  injection H as <-.
  rewrite deflate_columns_get by (auto using length_unit_column).
  assert (Hcol : column Ac j = map (fun _ => 0) (seq 0 (nrows Ac))).
  { unfold column. apply map_ext_in. intros x Hx. apply in_seq in Hx.
    apply Hzero. lia. }
  assert (Hv : nth r (unit_column Ac j) f0 = nan).
  { unfold unit_column. rewrite Hcol.
    unfold dot, fsum. simpl. rewrite fsum_zero_products.
    rewrite (nth_map_lt _ _ _ _ 0) by (rewrite length_map, length_seq; lia).
    rewrite (nth_map_lt _ _ _ _ 0%nat) by (rewrite length_seq; lia).
    reflexivity. }
  rewrite Hv. simpl. rewrite nan_mul_l. apply sub_nan_r.
Qed.

End Float64Facts.

(** * Runs of the additional properties *)

Section MoreExamples.
Local Open Scope float_scope.

Lemma float_one_is_not_zero : Some 1 <> Some 0.
Proof.
  intros H.
  apply (f_equal (fun o => match o with
                           | Some x => PrimFloat.eqb x 0
                           | None => false
                           end)) in H.
  vm_compute in H. discriminate H.
Qed.

Lemma svd_select_indices_in_range_witness :
  exists ix,
    fst (svd_select 0%nat 2%nat 1%nat None store_full) !! 4%nat = Some (Lst ix)
    /\ length ix = Nat.max (length (@nil nat)) 2
    /\ forall p j, (p < 2)%nat -> ix !! p = Some j -> (j < ncols A_full)%nat.
Proof.
  apply (svd_select_indices_in_range
           store_full 0%nat A_full 2%nat 1%nat None []
           (fst (svd_select 0%nat 2%nat 1%nat None store_full)) 4%nat);
    reflexivity.
Defined.

Lemma pcovr_select_indices_in_range_witness :
  exists ix,
    fst (pcovr_select 0%nat 2%nat 1%nat 1 1%nat None store_full) !! 5%nat = Some (Lst ix)
    /\ (length ix <= Nat.max (length (@nil nat)) 2)%nat
    /\ forall p j, (p < 2)%nat -> ix !! p = Some j -> (j < ncols A_full)%nat.
Proof.
  apply (pcovr_select_indices_in_range
           store_full 0%nat A_full 1%nat Y_ones 2%nat 1 1%nat None []
           (fst (pcovr_select 0%nat 2%nat 1%nat 1 1%nat None store_full)) 5%nat);
    reflexivity.
Defined.

Lemma svd_select_long_resume_list_witness :
  outcome (svd_select 0%nat 1%nat 1%nat (Some 2%nat) store_resume)
  = (if forallb (fun j => (j <? ncols A_full)%nat) (take 1 [0%nat])
     then Ok [0%nat] else Raise IndexError)
  /\ fst (svd_select 0%nat 1%nat 1%nat (Some 2%nat) store_resume) !! 2%nat
     = Some (Lst [0%nat]).
Proof.
  apply (svd_select_long_resume_list store_resume 0%nat A_full 1%nat 1%nat 2%nat [0%nat]).
  - reflexivity.
  - reflexivity.
  - left. simpl. lia.
Defined.

Lemma svd_select_distinct_witness :
  exists ix,
    fst (svd_select 0%nat 2%nat 1%nat None store_full) !! 4%nat = Some (Lst ix)
    /\ NoDup ix.
Proof.
  apply (svd_select_distinct
           store_full 0%nat A_full 2%nat 1%nat None []
           (fst (svd_select 0%nat 2%nat 1%nat None store_full)) 4%nat).
  - reflexivity.
  - reflexivity.
  - apply NoDup_nil_2.
  - simpl. split; [|split; [|exact Logic.I]].
    + intros _ usv pi i Husv Hpi Hi. vm_compute in Husv. injection Husv as <-.
      vm_compute in Hpi. injection Hpi as <-.
      vm_compute in Hi. injection Hi as <-. exact float_one_is_not_zero.
    + intros _ usv pi i Husv Hpi Hi. vm_compute in Husv. injection Husv as <-.
      vm_compute in Hpi. injection Hpi as <-.
      vm_compute in Hi. injection Hi as <-. exact float_one_is_not_zero.
  - reflexivity.
Defined.

Lemma pcovr_select_distinct_witness :
  exists ix,
    fst (pcovr_select 0%nat 2%nat 1%nat 1 1%nat None store_full) !! 5%nat = Some (Lst ix)
    /\ NoDup ix.
Proof.
  apply (pcovr_select_distinct
           store_full 0%nat A_full 1%nat Y_ones 2%nat 1 1%nat None []
           (fst (pcovr_select 0%nat 2%nat 1%nat 1 1%nat None store_full)) 5%nat).
  - reflexivity.
  - reflexivity.
  - reflexivity.
  - apply NoDup_nil_2.
  - simpl. split; [|split; [|exact Logic.I]].
    + intros _ Ct eig pi j HCt Heig Hpi Hj. vm_compute in HCt. injection HCt as <-.
      vm_compute in Heig. injection Heig as <-.
      vm_compute in Hpi. injection Hpi as <-.
      vm_compute in Hj. injection Hj as <-. exact float_one_is_not_zero.
    + intros _ Ct eig pi j HCt Heig Hpi Hj. vm_compute in HCt. injection HCt as <-.
      vm_compute in Heig. injection Heig as <-.
      vm_compute in Hpi. injection Hpi as <-.
      vm_compute in Hj. injection Hj as <-. exact float_one_is_not_zero.
  - reflexivity.
Defined.

Lemma svd_select_pick_failure_witness :
  snd (svd_select 0%nat 1%nat 2%nat None store_full) = Raise ValueError
  /\ forall li, @None nat = Some li ->
                fst (svd_select 0%nat 1%nat 2%nat None store_full) !! li
                = Some (Lst []).
Proof.
  apply (svd_select_pick_failure
           store_full 0%nat A_full 1%nat 2%nat None [] 0%nat A_full [] ValueError).
  - reflexivity.
  - reflexivity.
  - lia.
  - reflexivity.
  - simpl. lia.
  - reflexivity.
Defined.

Lemma pcovr_select_pick_failure_witness :
  snd (pcovr_select 0%nat 1%nat 1%nat 1 2%nat None store_full) = Raise LinAlgError
  /\ forall li, @None nat = Some li ->
                fst (pcovr_select 0%nat 1%nat 1%nat 1 2%nat None store_full) !! li
                = Some (Lst []).
Proof.
  apply (pcovr_select_pick_failure
           store_full 0%nat A_full 1%nat Y_ones 1%nat 1 2%nat None [] 0%nat
           A_full Y_ones [] (mat 2 2 [[4; 0]; [0; 1]]) LinAlgError).
  - reflexivity.
  - reflexivity.
  - reflexivity.
  - lia.
  - reflexivity.
  - simpl. lia.
  - reflexivity.
  - reflexivity.
Defined.

Lemma get_Ct_shape_witness :
  nrows Y_ones = nrows A_full
  /\ nrows (mat 2 2 [[4; 0]; [0; 1]]) = ncols A_full
  /\ ncols (mat 2 2 [[4; 0]; [0; 1]]) = ncols A_full.
Proof.
  apply (get_Ct_shape A_full Y_ones 1 f_default_reg (mat 2 2 [[4; 0]; [0; 1]])).
  reflexivity.
Defined.

Lemma pcovr_select_mismatched_Y_witness :
  outcome (pcovr_select 0%nat 2%nat 1%nat 1 1%nat None store_short) = Ok [].
Proof.
  apply (pcovr_select_mismatched_Y store_short 0%nat A_full 1%nat Y_short 2%nat 1 1%nat).
  - reflexivity.
  - reflexivity.
  - simpl. lia.
Defined.

Lemma pcovr_select_resumed_mismatched_Y_witness :
  exists e,
    snd (pcovr_select 0%nat 2%nat 1%nat 1 1%nat (Some 2%nat) store_short_resume)
    = Raise e.
Proof.
  apply (pcovr_select_resumed_mismatched_Y
           store_short_resume 0%nat A_full 1%nat Y_short 2%nat 1 1%nat 2%nat [0%nat]).
  - reflexivity.
  - reflexivity.
  - reflexivity.
  - simpl. lia.
  - lia.
  - discriminate.
Defined.

Lemma update_all_or_nothing_witness :
  (exists R, update 1%nat (mat 2 1 [[2]; [0]]) store_full
             = (<[1%nat := Arr R]> store_full, Ok tt)
             /\ nrows R = nrows Y_ones /\ ncols R = ncols Y_ones
             /\ nrows (mat 2 1 [[2]; [0]]) = nrows Y_ones)
  \/ (exists e, update 1%nat (mat 2 1 [[2]; [0]]) store_full = (store_full, Raise e)).
Proof.
  apply (update_all_or_nothing store_full 1%nat Y_ones (mat 2 1 [[2]; [0]])).
  reflexivity.
Defined.

Lemma deflation_is_rank_one_update_witness :
  let v := unit_column A_full 0 in
  nrows A_deflated = nrows A_full /\ ncols A_deflated = ncols A_full
  /\ forall r i, (r < nrows A_full)%nat -> (i < ncols A_full)%nat ->
       get A_deflated r i
       = fsub (get A_full r i) (fmul (nth r v f0) (dot v (column A_full i))).
Proof.
  apply (deflation_is_rank_one_update A_full A_deflated 0%nat).
  reflexivity.
Defined.

Lemma deflate_zero_column_gives_nan_witness :
  exists Ac',
    deflate_array A_deflated 0 = Ok Ac'
    /\ get Ac' 1 1 = nan.
Proof.
  exists (mat 2 2 [[nan; nan]; [nan; nan]]). split; [reflexivity|].
  apply (deflate_zero_column_gives_nan A_deflated (mat 2 2 [[nan; nan]; [nan; nan]]) 0%nat).
  - intros [|[|r]] Hr; [reflexivity|reflexivity|simpl in Hr; lia].
  - reflexivity.
  - simpl. lia.
  - simpl. lia.
Defined.

Lemma unknown_selection_fails_at_compute_witness :
  exists self,
    CUR_init 0%nat None false (ByName "lasso") f_default_tol no_params store_full
    = (store_full, Ok self)
    /\ forall n_c n_r, compute self n_c n_r store_full = (store_full, Raise TypeError).
Proof.
  apply (unknown_selection_fails_at_compute
           store_full 0%nat A_full "lasso" false f_default_tol no_params);
    reflexivity.
Defined.

Lemma pcovr_without_Y_fails_at_compute_witness :
  exists self,
    CUR_init 0%nat None false (ByName "pcovr") f_default_tol no_params store_full
    = (store_full, Ok self)
    /\ forall n_c n_r, compute self n_c n_r store_full = (store_full, Raise TypeError).
Proof.
  apply (pcovr_without_Y_fails_at_compute
           store_full 0%nat A_full false f_default_tol no_params).
  - reflexivity.
  - left. reflexivity.
Defined.

Lemma compute_needs_n_r_witness :
  exists e, snd (compute cur_plain 1%nat None store_full) = Raise e.
Proof.
  apply (compute_needs_n_r cur_plain "svd" 1%nat store_full); reflexivity.
Defined.

Lemma symmetric_mode_shares_index_list_witness :
  self_idx_r cur_one = self_idx_c cur_one /\ is_Some (self_idx_c cur_one)
  /\ self_symmetric cur_one = true /\ self_fs cur_one = false.
Proof.
  apply (symmetric_mode_shares_index_list
           cur_fresh 1%nat None store_full store_one cur_one
           (mat 2 1 [[2]; [0]], mat 1 1 [[0.5]], mat 1 2 [[2; 0]]));
    reflexivity.
Defined.

Lemma compute_from_warm_cache_witness :
  fst (compute cur_one 1%nat None store_one) = store_one
  /\ forall self' A_c S A_r,
       snd (compute cur_one 1%nat None store_one) = Ok (self', (A_c, S, A_r)) ->
       self' = cur_one /\ A_c = select_columns A_full (take 1 [0%nat])
       /\ ncols A_c = 1%nat.
Proof.
  apply (compute_from_warm_cache cur_one 1%nat None store_one A_full
                                 4%nat 4%nat [0%nat] [0%nat]).
  - reflexivity.
  - reflexivity.
  - reflexivity.
  - reflexivity.
  - reflexivity.
  - simpl. lia.
  - intros n H. vm_compute in H. injection H as <-. simpl. lia.
Defined.

Lemma compute_svd_column_count_witness :
  (1 <= ncols (mat 2 1 [[2]; [0]]%float))%nat
  /\ (ncols (mat 2 1 [[2]; [0]]%float) <= Nat.max 1 (length (@nil nat)))%nat
  /\ nrows (mat 2 1 [[2]; [0]]) = nrows A_full.
Proof.
  apply (compute_svd_column_count
           cur_fresh 1%nat None store_full A_full [] [] store_one cur_one
           (mat 2 1 [[2]; [0]]) (mat 1 1 [[0.5]]) (mat 1 2 [[2; 0]]));
    reflexivity.
Defined.

Lemma precompute_warms_cache_witness :
  fst (compute cur_one 1%nat (Some 1%nat) store_one) = store_one
  /\ forall self' A_c S A_r,
       snd (compute cur_one 1%nat (Some 1%nat) store_one) = Ok (self', (A_c, S, A_r)) ->
       self' = cur_one /\ ncols A_c = 1%nat.
Proof.
  apply (precompute_warms_cache
           store_full 0%nat A_full 1%nat 1%nat 1%nat f_default_tol no_params
           store_one cur_one).
  - reflexivity.
  - reflexivity.
  - lia.
  - lia.
Defined.

Lemma compute_is_repeatable_witness :
  compute cur_one 1%nat None store_one
  = (store_one,
     Ok (cur_one, (mat 2 1 [[2]; [0]], mat 1 1 [[0.5]], mat 1 2 [[2; 0]]))).
Proof.
  apply (compute_is_repeatable cur_fresh 1%nat None store_full A_full).
  - reflexivity.
  - reflexivity.
  - reflexivity.
  - reflexivity.
  - intros _ _ k Hk. discriminate Hk.
  - reflexivity.
Defined.

Lemma symmetric_flag_is_tolerance_sign_witness :
  symmetric_flag A_asym f_default_tol = Ok (fltb f0 f_default_tol).
Proof.
  apply (symmetric_flag_is_tolerance_sign A_asym 1%nat f_default_tol).
  - reflexivity.
  - simpl. lia.
  - reflexivity.
Defined.



Lemma pcovr_select_long_resume_list_witness :
  outcome (pcovr_select 0%nat 1%nat 1%nat 1 1%nat (Some 2%nat) store_resume)
  = outcome (pcovr_select 0%nat 1%nat 1%nat 0 2%nat (Some 2%nat) store_resume)
  /\ (forall L, outcome (pcovr_select 0%nat 1%nat 1%nat 1 1%nat (Some 2%nat) store_resume)
                = Ok L -> L = [0%nat])
  /\ fst (pcovr_select 0%nat 1%nat 1%nat 1 1%nat (Some 2%nat) store_resume) !! 2%nat
     = Some (Lst [0%nat]).
Proof.
  apply (pcovr_select_long_resume_list
           store_resume 0%nat A_full 1%nat Y_ones 1%nat 1 1%nat 0 2%nat 2%nat [0%nat]).
  - reflexivity.
  - reflexivity.
  - reflexivity.
  - simpl. lia.
Defined.

End MoreExamples.
